(** * claude-mailer: message decomposition, HTML formatting and threading

    A shallow embedding of [index.ts].  JavaScript strings are sequences of
    UTF-16 code units; a code unit is modelled as an [N] and a string as a
    list of code units, so that nothing is lost on text outside Latin-1.
    Regular-expression driven calls ([replace] with a global pattern, [split],
    [test], [match]) are modelled by a left-to-right scanner parameterised by
    a function that says how many code units the pattern consumes at the
    current position. *)

From Stdlib Require Import NArith ZArith List Bool Ascii String Lia.
Import ListNotations.

Local Open Scope N_scope.
Local Open Scope list_scope.

(* ------------------------------------------------------------------------- *)
(** ** JavaScript strings *)
(* ------------------------------------------------------------------------- *)

Module JS.

Definition char := N.
Definition str := list char.

(** A string literal of the source, as its code units. *)
Definition lit (s : string) : str :=
  List.map N_of_ascii (list_ascii_of_string s).

Definition LF : char := 10.
Definition CR : char := 13.
Definition DQUOTE : char := 34.
Definition AMP : char := 38.
Definition LT : char := 60.
Definition EQUALS : char := 61.
Definition GT : char := 62.
Definition BACKSLASH : char := 92.

Definition isLF (c : char) : bool := c =? LF.
Definition isCR (c : char) : bool := c =? CR.

(** [[a-z]] under the [i] flag of a pattern without the [u] flag: the ASCII
    letters of both cases, and nothing else. *)
Definition isAsciiLetter (c : char) : bool :=
  ((65 <=? c) && (c <=? 90)) || ((97 <=? c) && (c <=? 122)).

(** [[0-9A-F]] under the [i] flag. *)
Definition isHexDigit (c : char) : bool :=
  ((48 <=? c) && (c <=? 57)) || ((65 <=? c) && (c <=? 70))
  || ((97 <=? c) && (c <=? 102)).

(** Value of a hexadecimal digit, as [parseInt(_, 16)] reads it. *)
Definition hexValue (c : char) : N :=
  if (48 <=? c) && (c <=? 57) then c - 48
  else if (65 <=? c) && (c <=? 70) then c - 55
  else c - 87.

(** ASCII case folding, for the literal letters of an [i]-flagged pattern. *)
Definition toLowerAscii (c : char) : char :=
  if (65 <=? c) && (c <=? 90) then c + 32 else c.

(** White space and line terminators, as [String.prototype.trim] strips. *)
Definition isWhiteSpace (c : char) : bool :=
  ((9 <=? c) && (c <=? 13)) || (c =? 32) || (c =? 160) || (c =? 5760)
  || ((8192 <=? c) && (c <=? 8202)) || (c =? 8232) || (c =? 8233)
  || (c =? 8239) || (c =? 8287) || (c =? 12288) || (c =? 65279).

Fixpoint trimStart (s : str) : str :=
  match s with
  | [] => []
  | c :: r => if isWhiteSpace c then trimStart r else s
  end.

Definition trim (s : str) : str := rev (trimStart (rev (trimStart s))).

Fixpoint startsWith (p s : str) : bool :=
  match p, s with
  | [], _ => true
  | _ :: _, [] => false
  | a :: p', b :: s' => (a =? b) && startsWith p' s'
  end.

(** [s.includes(needle)] *)
Fixpoint includes (needle s : str) : bool :=
  startsWith needle s
  || match s with
     | [] => false
     | _ :: r => includes needle r
     end.

(** [parts.join(sep)] *)
Fixpoint join (sep : str) (parts : list str) : str :=
  match parts with
  | [] => []
  | [p] => p
  | p :: ps => p ++ sep ++ join sep ps
  end.

(** [a.slice(1)] on an array. *)
Definition slice1 {A : Type} (l : list A) : list A := List.tl l.

(** A value used as a condition: [undefined] and the empty string are
    falsy, every other string is truthy. *)
Definition truthy (v : option str) : bool :=
  match v with
  | Some (_ :: _) => true
  | _ => false
  end.

(** [a || b] on possibly undefined strings. *)
Definition orElse (a b : option str) : option str :=
  if truthy a then a else b.

Section Scanner.

(** [pat s] is [Some n] when the pattern matches at the head of [s] and
    consumes [n] code units there (the pattern's own greediness decides
    [n]).  Every pattern of this program consumes at least one code unit,
    which is what the scanners below rely on. *)
Variable pat : str -> option nat.

(** [re.test(s)]: some position matches. *)
Fixpoint test (s : str) : bool :=
  match pat s with
  | Some _ => true
  | None => match s with
            | [] => false
            | _ :: r => test r
            end
  end.

(** [s.replace(re, f)] for a global pattern: matches are taken leftmost
    first and do not overlap; [f] receives the matched text.  [skip]
    counts the code units of the current match still to be passed over. *)
Variable f : str -> str.

Fixpoint replaceFrom (skip : nat) (s : str) : str :=
  match s with
  | [] => []
  | c :: r =>
      match skip with
      | S k => replaceFrom k r
      | O =>
          match pat s with
          | Some n => f (firstn n s) ++ replaceFrom (pred n) r
          | None => c :: replaceFrom 0 r
          end
      end
  end.

Definition replaceAll (s : str) : str := replaceFrom 0 s.

(** [s.split(re)] for a pattern without capture groups: [cur] holds, in
    reverse, the segment read since the last match. *)
Fixpoint splitFrom (skip : nat) (cur : str) (s : str) : list str :=
  match s with
  | [] => [rev cur]
  | c :: r =>
      match skip with
      | S k => splitFrom k cur r
      | O =>
          match pat s with
          | Some n => rev cur :: splitFrom (pred n) [] r
          | None => splitFrom 0 (c :: cur) r
          end
      end
  end.

Definition split (s : str) : list str := splitFrom 0 [] s.

End Scanner.

(** The pattern made of one literal code unit, e.g. [/&/]. *)
Definition patChar (c : char) (s : str) : option nat :=
  match s with
  | x :: _ => if x =? c then Some 1%nat else None
  | [] => None
  end.

(** A pattern made of literal code units only. *)
Definition patLiteral (d : str) (s : str) : option nat :=
  if startsWith d s then Some (List.length d) else None.

End JS.

Import JS.

(* ------------------------------------------------------------------------- *)
(** ** HTML utilities *)
(* ------------------------------------------------------------------------- *)

Definition ampEntity : str := lit "&amp;".
Definition ltEntity : str := lit "&lt;".
Definition gtEntity : str := lit "&gt;".
Definition quotEntity : str := lit "&quot;".
Definition brTag : str := lit "<br>".

(** Four global replacements, chained in this order: ampersand, less-than,
    greater-than, double quote; each by its named entity. *)
Definition escapeHtml (text : str) : str :=
  replaceAll (patChar DQUOTE) (fun _ => quotEntity)
    (replaceAll (patChar GT) (fun _ => gtEntity)
       (replaceAll (patChar LT) (fun _ => ltEntity)
          (replaceAll (patChar AMP) (fun _ => ampEntity) text))).

(** [/<[a-z][\s\S]*>/i] at the head of [s]: a [<], a letter, and a [>]
    anywhere later ([[\s\S]] accepts every code unit, line ends included).
    The greedy star runs to the last [>]. *)
Fixpoint lastGt (s : str) : option nat :=
  match s with
  | [] => None
  | c :: r =>
      match lastGt r with
      | Some i => Some (S i)
      | None => if c =? GT then Some O else None
      end
  end.

Definition patOpenTag (s : str) : option nat :=
  match s with
  | c1 :: c2 :: rest =>
      if (c1 =? LT) && isAsciiLetter c2 then
        match lastGt rest with
        | Some i => Some (3 + i)%nat
        | None => None
        end
      else None
  | _ => None
  end.

Definition isHtml (text : str) : bool := test patOpenTag text.

(** [escapeHtml(text).replace(/\n/g, "<br>\n")] *)
Definition textToHtml (text : str) : str :=
  replaceAll (patChar LF) (fun _ => brTag ++ [LF]) (escapeHtml text).

(** The date rendering of [formatDate] is left to the host's locale data;
    a date is therefore carried with its rendered form. *)
Record Date := { formatted : str }.

Definition formatDate (d : Date) : str := formatted d.

Module FetchedMessage.
Record t := {
  messageId : str;
  from : str;
  to : str;
  subject : str;
  date : Date;
  body : str;
  html : option str;
  references : option str
}.
End FetchedMessage.

Module SendOptions.
Record t := {
  to : str;
  subject : str;
  body : str;
  inReplyTo : option str;
  references : option str;
  quotedMessage : option FetchedMessage.t
}.
End SendOptions.

(** The fields of [nodemailer.SendMailOptions] that the program sets; a
    header that is not set is [None]. *)
Module MailOptions.
Record t := {
  from : str;
  to : str;
  subject : str;
  html : str;
  inReplyTo : option str;
  references : option str
}.
End MailOptions.

(** The text of a template hole holding a possibly undefined string. *)
Definition interp (v : option str) : str :=
  match v with
  | Some s => s
  | None => lit "undefined"
  end.

Definition formatHtmlQuote (msg : FetchedMessage.t) : str :=
  let attribution :=
    lit "On " ++ formatDate (FetchedMessage.date msg) ++ lit ", "
    ++ escapeHtml (FetchedMessage.from msg) ++ lit " wrote:" in
  let quotedContent :=
    interp (orElse (FetchedMessage.html msg)
              (Some (textToHtml (FetchedMessage.body msg)))) in
  [LF] ++ lit "<div style=" ++ [DQUOTE] ++ lit "margin-top: 1em; color: #666;"
  ++ [DQUOTE] ++ lit ">" ++ attribution ++ lit "</div>" ++ [LF]
  ++ lit "<blockquote type=" ++ [DQUOTE] ++ lit "cite" ++ [DQUOTE]
  ++ lit " style=" ++ [DQUOTE]
  ++ lit "margin: 0.5em 0; padding-left: 1em; border-left: 2px solid #ccc;"
  ++ [DQUOTE] ++ lit ">" ++ [LF]
  ++ quotedContent ++ [LF] ++ lit "</blockquote>".

Definition documentHead : str :=
  lit "<!DOCTYPE html>" ++ [LF] ++ lit "<html>" ++ [LF] ++ lit "<head>" ++ [LF]
  ++ lit "  <meta charset=" ++ [DQUOTE] ++ lit "utf-8" ++ [DQUOTE] ++ lit ">"
  ++ [LF] ++ lit "</head>" ++ [LF] ++ lit "<body style=" ++ [DQUOTE]
  ++ lit "font-family: -apple-system, BlinkMacSystemFont, 'Segoe UI', Roboto, sans-serif; font-size: 14px; line-height: 1.5; color: #333;"
  ++ [DQUOTE] ++ lit ">" ++ [LF].

Definition documentTail : str :=
  [LF] ++ lit "</body>" ++ [LF] ++ lit "</html>".

Definition wrapInHtmlDocument (bodyHtml : str) : str :=
  documentHead ++ bodyHtml ++ documentTail.

(* ------------------------------------------------------------------------- *)
(** ** MIME utilities *)
(* ------------------------------------------------------------------------- *)

(** [/\r?\n/] at the head of [s]: the number of code units of the line
    ending found there. *)
Definition eolAt (s : str) : option nat :=
  match s with
  | c1 :: r =>
      if isLF c1 then Some 1%nat
      else if isCR c1 then
        match r with
        | c2 :: _ => if isLF c2 then Some 2%nat else None
        | [] => None
        end
      else None
  | [] => None
  end.

(** [/=\r?\n/]: a soft line break. *)
Definition patSoftBreak (s : str) : option nat :=
  match s with
  | c :: r =>
      if c =? EQUALS then
        match eolAt r with
        | Some n => Some (S n)
        | None => None
        end
      else None
  | [] => None
  end.

(** [/=([0-9A-F]{2})/gi]: an escape of two hexadecimal digits. *)
Definition patHexEscape (s : str) : option nat :=
  match s with
  | c :: h1 :: h2 :: _ =>
      if (c =? EQUALS) && isHexDigit h1 && isHexDigit h2
      then Some 3%nat else None
  | _ => None
  end.

(** [parseInt(hex, 16)] on a run of hexadecimal digits. *)
Definition parseHex (digits : str) : N :=
  fold_left (fun acc d => 16 * acc + hexValue d) digits 0.

(** [String.fromCharCode(n)] *)
Definition fromCharCode (n : N) : str := [n mod 65536].

(** The replacement callback of the second pass: the first capture group
    is the matched text without its leading [=]. *)
Definition hexReplacement (matched : str) : str :=
  fromCharCode (parseHex (skipn 1 matched)).

Definition removeSoftBreaks (text : str) : str :=
  replaceAll patSoftBreak (fun _ => []) text.

Definition decodeHexEscapes (text : str) : str :=
  replaceAll patHexEscape hexReplacement text.

Definition decodeQuotedPrintable (text : str) : str :=
  decodeHexEscapes (removeSoftBreaks text).

(** [/\r?\n\r?\n/]: two line endings in a row. *)
Definition patBlankLine (s : str) : option nat :=
  match eolAt s with
  | Some n1 =>
      match eolAt (skipn n1 s) with
      | Some n2 => Some (n1 + n2)%nat
      | None => None
      end
  | None => None
  end.

(** [x.split(/\r?\n\r?\n/).slice(1).join(LF LF)], used for the message
    and again for each part. *)
Definition afterFirstBlank (x : str) : str :=
  join [LF; LF] (slice1 (split patBlankLine x)).

(** The class of the capture group: anything but a double quote, CR, LF. *)
Definition isBoundaryChar (c : char) : bool :=
  negb ((c =? DQUOTE) || isCR c || isLF c).

Fixpoint takeWhile (p : char -> bool) (s : str) : str :=
  match s with
  | c :: r => if p c then c :: takeWhile p r else []
  | [] => []
  end.

(** A literal of an [i]-flagged pattern, given in lower case. *)
Fixpoint startsWithCI (p s : str) : bool :=
  match p, s with
  | [], _ => true
  | _ :: _, [] => false
  | a :: p', b :: s' => (a =? toLowerAscii b) && startsWithCI p' s'
  end.

(** The boundary pattern at the head of [s]: the word, an optional quote,
    then the longest non-empty run of code units other than quote, CR and
    LF; the run is the first capture group.  Giving the quote back does not
    help when the run after it is empty, since the run would then have to
    start on that quote. *)
Definition boundaryAt (s : str) : option str :=
  if startsWithCI (lit "boundary=") s then
    let rest := skipn 9 s in
    let rest' := match rest with
                 | c :: r => if c =? DQUOTE then r else rest
                 | [] => rest
                 end in
    match takeWhile isBoundaryChar rest' with
    | [] => None
    | v => Some v
    end
  else None.

(** [headers.match(...)]: the capture of the leftmost match. *)
Fixpoint boundaryMatch (headers : str) : option str :=
  match boundaryAt headers with
  | Some b => Some b
  | None => match headers with
            | [] => None
            | _ :: r => boundaryMatch r
            end
  end.

(** The character class of the escaping pattern: the syntax characters of
    regular expressions. *)
Definition isRegexSyntax (c : char) : bool :=
  existsb (N.eqb c) (lit ".*+?^${}()|[]" ++ [BACKSLASH]).

Definition patRegexSyntax (s : str) : option nat :=
  match s with
  | c :: _ => if isRegexSyntax c then Some 1%nat else None
  | [] => None
  end.

(** The boundary with a backslash put before each syntax character. *)
Definition escapeRegExp (boundary : str) : str :=
  replaceAll patRegexSyntax (fun matched => BACKSLASH :: matched) boundary.

(** [new RegExp(source)] on a source made of ordinary characters and of
    backslash escapes of syntax characters: the sequence of code units the
    pattern stands for.  Any other source is outside this fragment. *)
Fixpoint literalOfSource (source : str) : option str :=
  match source with
  | [] => Some []
  | c :: r =>
      if c =? BACKSLASH then
        match r with
        | e :: r' =>
            if isRegexSyntax e then
              match literalOfSource r' with
              | Some d => Some (e :: d)
              | None => None
              end
            else None
        | [] => None
        end
      else if isRegexSyntax c then None
      else match literalOfSource r with
           | Some d => Some (c :: d)
           | None => None
           end
  end.

Definition plainMarker : str := lit "Content-Type: text/plain".
Definition htmlMarker : str := lit "Content-Type: text/html".

Record Bodies := { plainBody : str; htmlBody : str }.

(** The body of the loop over the parts. *)
Definition scanPart (acc : Bodies) (part : str) : Bodies :=
  if includes plainMarker part then
    {| plainBody := decodeQuotedPrintable (afterFirstBlank part);
       htmlBody := htmlBody acc |}
  else if includes htmlMarker part then
    {| plainBody := plainBody acc;
       htmlBody := decodeQuotedPrintable (afterFirstBlank part) |}
  else acc.

Definition headersOf (sourceText : str) : str :=
  hd [] (split patBlankLine sourceText).

Definition rawBodyOf (sourceText : str) : str := afterFirstBlank sourceText.

(** The parts of a multipart body. *)
Definition partsOf (boundary rawBody : str) : list str :=
  match literalOfSource (lit "--" ++ escapeRegExp boundary) with
  | Some d => split (patLiteral d) rawBody
  | None => []
  end.

(** The decomposition step of [fetchMessageById]: from the raw source to
    the two bodies. *)
Definition decompose (sourceText : str) : Bodies :=
  let headers := headersOf sourceText in
  let rawBody := rawBodyOf sourceText in
  let empty := {| plainBody := []; htmlBody := [] |} in
  match boundaryMatch headers with
  | Some boundary => fold_left scanPart (partsOf boundary rawBody) empty
  | None =>
      {| plainBody := decodeQuotedPrintable rawBody; htmlBody := [] |}
  end.

(* ------------------------------------------------------------------------- *)
(** ** Effects: console, process exit, exceptions, the two servers *)
(* ------------------------------------------------------------------------- *)

Record Error := { errMessage : str }.

Record Config := {
  host : str;
  port : Z;
  user : str;
  pass : str;
  secure : bool
}.

Record Address := { name : option str; address : option str }.

Record Envelope := {
  envFrom : option (list Address);
  envTo : option (list Address);
  envSubject : option str;
  envDate : option Date;
  envMessageId : option str;
  envInReplyTo : option str
}.

(** What [fetchOne] answers; [source] is the raw message already read as
    UTF-8 text. *)
Record ImapMessage := { envelope : Envelope; source : str }.

(** What the process does to the outside, in order. *)
Inductive Event :=
| ImapConnect
| ImapLock (mailbox : str)
| ImapSearch (searchId : str)
| ImapFetchOne (uid : N)
| ImapRelease
| ImapLogout
| SmtpSend (mail : MailOptions.t)
| Stdout (line : str)
| Stderr (line : str).

(** How the outside answers.  The flow is sequential and each operation is
    used at most once per kind and argument, so an answer per operation
    describes a whole run.  [inl] is a rejected promise. *)
Record World := {
  imapConfig : Config;
  smtpConfig : Config;
  now : Date;
  connect : Error + unit;
  getMailboxLock : str -> Error + unit;
  search : str -> Error + list N;
  fetchOne : N -> Error + ImapMessage;
  logout : Error + unit;
  sendMail : MailOptions.t -> Error + str
}.

Inductive Outcome (A : Type) :=
| Returned (a : A)
| Thrown (e : Error)
| Exited (code : Z).

Arguments Returned {A} a.
Arguments Thrown {A} e.
Arguments Exited {A} code.

(** A computation: the events it caused and how it ended. *)
Definition Prog (A : Type) : Type := (list Event * Outcome A)%type.

Definition ret {A} (a : A) : Prog A := ([], Returned a).

Definition bind {A B} (m : Prog A) (k : A -> Prog B) : Prog B :=
  match m with
  | (t, Returned a) => let (t', o) := k a in (t ++ t', o)
  | (t, Thrown e) => (t, Thrown e)
  | (t, Exited c) => (t, Exited c)
  end.

Notation "x <- m ;; k" := (bind m (fun x => k))
  (at level 61, m at next level, right associativity).
Notation "m ;;; k" := (bind m (fun _ => k))
  (at level 61, right associativity).

Definition emit (e : Event) : Prog unit := ([e], Returned tt).

(** An awaited call to a server. *)
Definition call {A} (e : Event) (answer : Error + A) : Prog A :=
  ([e], match answer with
        | inl err => Thrown err
        | inr a => Returned a
        end).

(** [process.exit(code)]: nothing runs afterwards, [finally] blocks
    included. *)
Definition exit {A} (code : Z) : Prog A := ([], Exited code).

(** [try { m } finally { fin }] *)
Definition tryFinally {A} (m : Prog A) (fin : Prog unit) : Prog A :=
  match m with
  | (t, Exited c) => (t, Exited c)
  | (t, o) =>
      match fin with
      | (t', Returned _) => (t ++ t', o)
      | (t', Thrown e) => (t ++ t', Thrown e)
      | (t', Exited c) => (t ++ t', Exited c)
      end
  end.

(** [m.catch(handler)] *)
Definition catch {A} (m : Prog A) (handler : Error -> Prog A) : Prog A :=
  match m with
  | (t, Thrown e) => let (t', o) := handler e in (t ++ t', o)
  | _ => m
  end.

Definition isEmpty (s : str) : bool :=
  match s with
  | [] => true
  | _ :: _ => false
  end.

Definition credentialsHint : str :=
  lit "Create ~/.config/claude-mailer/.env with your Proton Bridge credentials.".

Definition validateSmtpConfig (w : World) : Prog unit :=
  let config := smtpConfig w in
  if isEmpty (user config) || isEmpty (pass config) then
    emit (Stderr (lit "Error: SMTP_USER and SMTP_PASS environment variables required")) ;;;
    emit (Stderr credentialsHint) ;;;
    exit 1
  else ret tt.

Definition validateImapConfig (w : World) : Prog unit :=
  let config := imapConfig w in
  if isEmpty (user config) || isEmpty (pass config) then
    emit (Stderr (lit "Error: IMAP_USER and IMAP_PASS environment variables required")) ;;;
    emit (Stderr credentialsHint) ;;;
    exit 1
  else ret tt.

(* ------------------------------------------------------------------------- *)
(** ** IMAP operations *)
(* ------------------------------------------------------------------------- *)

(** [messageId.replace(/^<|>$/g, "")]: the two alternatives are anchored,
    one at the start and one at the end of the text. *)
Definition stripLeadingLt (s : str) : str :=
  match s with
  | c :: r => if c =? LT then r else s
  | [] => []
  end.

Fixpoint stripTrailingGt (s : str) : str :=
  match s with
  | [] => []
  | [c] => if c =? GT then [] else [c]
  | c :: r => c :: stripTrailingGt r
  end.

Definition searchIdOf (messageId : str) : str :=
  stripTrailingGt (stripLeadingLt messageId).

(** The display form of an address of the envelope. *)
Definition formatAddress (a : option Address) : str :=
  match a with
  | Some addr =>
      trim (interp (orElse (name addr) (Some [])) ++ lit " <"
            ++ interp (address addr) ++ lit ">")
  | None => lit "Unknown"
  end.

(** [list?.[0]] *)
Definition firstOf {A} (l : option (list A)) : option A :=
  match l with
  | Some (x :: _) => Some x
  | _ => None
  end.

(** [s || undefined] *)
Definition nonEmpty (s : str) : option str :=
  match s with
  | [] => None
  | _ :: _ => Some s
  end.

(** The message built from what [fetchOne] answered. *)
Definition resultOf (w : World) (messageId : str) (msg : ImapMessage)
  : FetchedMessage.t :=
  let sourceText := source msg in
  let bodies := decompose sourceText in
  let env := envelope msg in
  {| FetchedMessage.messageId :=
       interp (orElse (envMessageId env) (Some messageId));
     FetchedMessage.from := formatAddress (firstOf (envFrom env));
     FetchedMessage.to := formatAddress (firstOf (envTo env));
     FetchedMessage.subject :=
       interp (orElse (envSubject env) (Some (lit "(no subject)")));
     FetchedMessage.date :=
       match envDate env with
       | Some d => d
       | None => now w
       end;
     FetchedMessage.body := trim (plainBody bodies);
     FetchedMessage.html := nonEmpty (trim (htmlBody bodies));
     FetchedMessage.references := envInReplyTo env |}.

Definition fetchMessageById (w : World) (messageId : str)
  : Prog (option FetchedMessage.t) :=
  validateImapConfig w ;;;
  call ImapConnect (connect w) ;;;
  call (ImapLock (lit "INBOX")) (getMailboxLock w (lit "INBOX")) ;;;
  tryFinally
    (let searchId := searchIdOf messageId in
     uids <- call (ImapSearch searchId) (search w searchId) ;;
     match uids with
     | [] => ret None
     | uid :: _ =>
         msg <- call (ImapFetchOne uid) (fetchOne w uid) ;;
         ret (Some (resultOf w messageId msg))
     end)
    (emit ImapRelease ;;; call ImapLogout (logout w)).

(* ------------------------------------------------------------------------- *)
(** ** SMTP operations *)
(* ------------------------------------------------------------------------- *)

(** The body of the message before it is wrapped in the document. *)
Definition bodyHtmlOf (options : SendOptions.t) : str :=
  let inputIsHtml := isHtml (SendOptions.body options) in
  let bodyHtml :=
    if inputIsHtml then SendOptions.body options
    else lit "<div>" ++ textToHtml (SendOptions.body options) ++ lit "</div>" in
  match SendOptions.quotedMessage options with
  | Some quoted => bodyHtml ++ [LF] ++ formatHtmlQuote quoted
  | None => bodyHtml
  end.

(** What [sendEmail] hands to the transport. *)
Definition mailOptionsOf (sender : str) (options : SendOptions.t)
  : MailOptions.t :=
  let fullHtml := wrapInHtmlDocument (bodyHtmlOf options) in
  let mailOptions :=
    {| MailOptions.from := sender;
       MailOptions.to := SendOptions.to options;
       MailOptions.subject := SendOptions.subject options;
       MailOptions.html := fullHtml;
       MailOptions.inReplyTo := None;
       MailOptions.references := None |} in
  if truthy (SendOptions.inReplyTo options) then
    {| MailOptions.from := MailOptions.from mailOptions;
       MailOptions.to := MailOptions.to mailOptions;
       MailOptions.subject := MailOptions.subject mailOptions;
       MailOptions.html := MailOptions.html mailOptions;
       MailOptions.inReplyTo := SendOptions.inReplyTo options;
       MailOptions.references :=
         if truthy (SendOptions.references options)
         then Some (interp (SendOptions.references options) ++ lit " "
                    ++ interp (SendOptions.inReplyTo options))
         else SendOptions.inReplyTo options |}
  else mailOptions.

Definition sendEmail (w : World) (options : SendOptions.t) : Prog unit :=
  validateSmtpConfig w ;;;
  let mailOptions := mailOptionsOf (user (smtpConfig w)) options in
  sentId <- call (SmtpSend mailOptions) (sendMail w mailOptions) ;;
  emit (Stdout (lit "Sent to " ++ SendOptions.to options ++ lit ": "
                ++ SendOptions.subject options)) ;;;
  emit (Stdout (lit "Message-ID: " ++ sentId)).

(* ------------------------------------------------------------------------- *)
(** ** Command line *)
(* ------------------------------------------------------------------------- *)

(** The command line after [parseArgs], and the standard input.  The model
    is that of a run without the verbose flag, whose only effect is to add
    debug lines to the output. *)
Record Args := {
  command : option str;
  positionals : list str;
  quoteMessageId : option str;
  inReplyToArg : option str;
  referencesArg : option str;
  stdin : str
}.

Definition usageLines : list str :=
  [ lit "Usage: bun run index.ts <send|reply> <to> <subject> [options]";
    [];
    lit "Commands:";
    lit "  send   Send a new email";
    lit "  reply  Send a reply with threading";
    [];
    lit "Options:";
    lit "  --quote-message-id=<id>  Message-ID to reply to (auto-fetches and quotes)";
    lit "  --in-reply-to=<id>       Message-ID for threading only (no quote)";
    lit "  --references=<ids>       Full references chain";
    lit "  --verbose                Enable debug output";
    [];
    lit "Input: Plain text or HTML via stdin.";
    lit "       For markdown, pipe through pandoc first:";
    lit "       cat msg.md | pandoc -f markdown -t html | bun run index.ts send ..." ].

Definition printUsage : Prog unit :=
  fold_right (fun line rest => emit (Stderr line) ;;; rest) (ret tt) usageLines.

Definition strEqb (a b : str) : bool :=
  (List.length a =? List.length b)%nat && startsWith a b.

Definition isCommand (c : option str) : bool :=
  match c with
  | Some s => negb (isEmpty s)
              && (strEqb s (lit "send") || strEqb s (lit "reply"))
  | None => false
  end.

Definition notFoundLine (msgId : str) : str :=
  lit "Error: Could not find message with ID " ++ msgId.

Definition main (w : World) (args : Args) : Prog unit :=
  (if isCommand (command args) then ret tt else printUsage ;;; exit 1) ;;;
  let to := nth_error (positionals args) 0 in
  let subject := nth_error (positionals args) 1 in
  (if truthy to && truthy subject then ret tt
   else emit (Stderr (lit "Error: <to> and <subject> are required")) ;;;
        printUsage ;;; exit 1) ;;;
  let body := stdin args in
  (if isEmpty (trim body) then
     emit (Stderr (lit "Error: No email body provided via stdin")) ;;; exit 1
   else ret tt) ;;;
  threading <-
    (if truthy (quoteMessageId args) then
       let msgId := interp (quoteMessageId args) in
       emit (Stdout (lit "Fetching message " ++ msgId ++ lit "...")) ;;;
       fetched <- fetchMessageById w msgId ;;
       match fetched with
       | None => emit (Stderr (notFoundLine msgId)) ;;; exit 1
       | Some m =>
           ret (Some m, Some msgId, FetchedMessage.references m)
       end
     else ret (None, inReplyToArg args, referencesArg args)) ;;
  let '(quotedMessage, inReplyTo, references) := threading in
  sendEmail w
    {| SendOptions.to := interp to;
       SendOptions.subject := interp subject;
       SendOptions.body := trim body;
       SendOptions.inReplyTo := inReplyTo;
       SendOptions.references := references;
       SendOptions.quotedMessage := quotedMessage |}.

Definition failedLine (err : Error) : str := lit "Failed: " ++ errMessage err.

(** The top level: [main().catch(...)]. *)
Definition run (w : World) (args : Args) : Prog unit :=
  catch (main w args)
    (fun err => emit (Stderr (failedLine err)) ;;; exit 1).

(* ------------------------------------------------------------------------- *)
(** ** Notions used in the statements, and sample data *)
(* ------------------------------------------------------------------------- *)

(** A tail [z] that no match starting in the text before it can reach
    into: in front of [z], the pattern sees what it would see at the end of
    the text. *)
Definition closedUnder (pat : str -> option nat) (z : str) : Prop :=
  forall y, y <> [] ->
    pat (y ++ z) = pat y
    /\ (forall n, pat y = Some n -> (n <= List.length y)%nat).

(** The step named by the round-trip property, which the program itself
    never performs: every line-break tag is taken out again. *)
Definition stripInsertedTags (markup : str) : str :=
  replaceAll (patLiteral brTag) (fun _ => []) markup.

(** What [escapeHtml] makes of one code unit. *)
Definition escapeChar (c : char) : str :=
  if c =? AMP then ampEntity
  else if c =? LT then ltEntity
  else if c =? GT then gtEntity
  else if c =? DQUOTE then quotEntity
  else [c].

Definition isHtmlMeta (c : char) : bool :=
  (c =? AMP) || (c =? LT) || (c =? GT) || (c =? DQUOTE).

(** An opening tag somewhere in the text: a [<], a letter right after it,
    and a [>] anywhere later. *)
Definition hasOpenTag (text : str) : Prop :=
  exists a c b d,
    text = a ++ [LT; c] ++ b ++ [GT] ++ d /\ isAsciiLetter c = true.

(** A soft line break of quoted-printable text. *)
Definition isSoftBreak (sb : str) : Prop :=
  sb = [EQUALS; LF] \/ sb = [EQUALS; CR; LF].

(** The two code units after an equals sign begin a line ending. *)
Definition startsLineEnd (c1 c2 : char) : bool :=
  isLF c1 || (isCR c1 && isLF c2).

(** The two code units after an equals sign make a malformed escape: they
    are not both hexadecimal digits; and they are payload, that is, they
    neither begin a line ending (which would make a soft break) nor are
    equals signs themselves (which would begin another token). *)
Definition malformedEscape (c1 c2 : char) : bool :=
  negb (isHexDigit c1 && isHexDigit c2)
  && negb (c1 =? EQUALS) && negb (c2 =? EQUALS)
  && negb (startsLineEnd c1 c2).

(** A blank-line boundary: two line endings in a row, each LF or CRLF. *)
Definition isBlankLine (sep : str) : Prop :=
  sep = [LF; LF] \/ sep = [CR; LF; LF] \/ sep = [LF; CR; LF]
  \/ sep = [CR; LF; CR; LF].

Fixpoint endsWithEol (a : str) : bool :=
  match a with
  | [] => false
  | [c] => isLF c || isCR c
  | _ :: r => endsWithEol r
  end.

(** A block of lines: no blank-line boundary inside, and no CR or LF at
    the very end that could join up with what follows. *)
Definition unbroken (a : str) : Prop :=
  test patBlankLine a = false /\ endsWithEol a = false.

Definition isPlainPart (part : str) : bool := includes plainMarker part.

Definition isHtmlPart (part : str) : bool :=
  negb (includes plainMarker part) && includes htmlMarker part.

(** The content of the last part that satisfies [p], if any. *)
Definition lastContent (p : str -> bool) (parts : list str) : option str :=
  option_map (fun part => decodeQuotedPrintable (afterFirstBlank part))
    (find p (rev parts)).

(** A text with each of its blank-line boundaries rewritten as LF LF. *)
Definition relinked (x : str) : str := join [LF; LF] (split patBlankLine x).

Definition CRLF : str := [CR; LF].

(** A multipart message with two parts of type text/plain. *)
Definition twoPlainParts : str :=
  lit "Content-Type: multipart/mixed; boundary=XYZ" ++ CRLF ++ CRLF
  ++ lit "--XYZ" ++ CRLF ++ lit "Content-Type: text/plain" ++ CRLF ++ CRLF
  ++ lit "first" ++ CRLF
  ++ lit "--XYZ" ++ CRLF ++ lit "Content-Type: text/plain" ++ CRLF ++ CRLF
  ++ lit "second" ++ CRLF
  ++ lit "--XYZ--" ++ CRLF.

(** The multipart message of the specification's example. *)
Definition plainAndHtml : str :=
  lit "MIME-Version: 1.0" ++ CRLF
  ++ lit "Content-Type: multipart/alternative; boundary=" ++ [DQUOTE]
  ++ lit "XYZ" ++ [DQUOTE] ++ CRLF ++ CRLF
  ++ lit "--XYZ" ++ CRLF ++ lit "Content-Type: text/plain" ++ CRLF ++ CRLF
  ++ lit "Hello" ++ CRLF
  ++ lit "--XYZ" ++ CRLF ++ lit "Content-Type: text/html" ++ CRLF ++ CRLF
  ++ lit "<p>Hello</p>" ++ CRLF
  ++ lit "--XYZ--" ++ CRLF.

(** A first segment followed by pairs of a separator and a segment. *)
Definition weave (first : str) (rest : list (str * str)) : str :=
  first ++ flat_map (fun p => fst p ++ snd p) rest.

(** Sample data for the worked instances. *)
Definition sampleEnvelope : Envelope :=
  {| envFrom := None; envTo := None; envSubject := None; envDate := None;
     envMessageId := None; envInReplyTo := None |}.

Definition plainOnly : ImapMessage :=
  {| envelope := sampleEnvelope;
     source := lit "Subject: hi" ++ CRLF ++ CRLF ++ lit "plain text only" |}.

Definition sampleConfig : Config :=
  {| host := lit "127.0.0.1"; port := 1143; user := lit "me@example.com";
     pass := lit "bridge-password"; secure := false |}.

(** A mail store that answers every search with no match. *)
Definition emptyInbox : World :=
  {| imapConfig := sampleConfig;
     smtpConfig := sampleConfig;
     now := {| formatted := lit "Monday, November 2, 2026 at 5:50 PM" |};
     connect := inr tt;
     getMailboxLock := fun _ => inr tt;
     search := fun _ => inr [];
     fetchOne := fun _ => inl {| errMessage := lit "no such message" |};
     logout := inr tt;
     sendMail := fun _ => inr (lit "<sent@example.com>") |}.

Definition refused : Error :=
  {| errMessage := lit "connect ECONNREFUSED 127.0.0.1:1143" |}.

(** A mail store that cannot be reached. *)
Definition unreachable : World :=
  {| imapConfig := sampleConfig;
     smtpConfig := sampleConfig;
     now := {| formatted := lit "Monday, November 2, 2026 at 5:50 PM" |};
     connect := inl refused;
     getMailboxLock := fun _ => inr tt;
     search := fun _ => inr [];
     fetchOne := fun _ => inl {| errMessage := lit "no such message" |};
     logout := inr tt;
     sendMail := fun _ => inr (lit "<sent@example.com>") |}.

Definition replyArgs : Args :=
  {| command := Some (lit "reply");
     positionals := [lit "alice@example.com"; lit "Re: Meeting"];
     quoteMessageId := Some (lit "<abc123@mail.protonmail.ch>");
     inReplyToArg := None;
     referencesArg := None;
     stdin := lit "Sounds good, thanks!" ++ [LF] |}.

(** A multipart message whose text part has two paragraphs. *)
Definition twoParagraphs : str :=
  lit "Content-Type: multipart/alternative; boundary=XYZ" ++ CRLF ++ CRLF
  ++ lit "--XYZ" ++ CRLF ++ lit "Content-Type: text/plain" ++ CRLF ++ CRLF
  ++ lit "one" ++ CRLF ++ CRLF ++ lit "two" ++ CRLF
  ++ lit "--XYZ--" ++ CRLF.


(** The checks that [main] makes before it fetches anything all pass. *)
Definition readyToFetch (args : Args) : bool :=
  isCommand (command args)
  && truthy (nth_error (positionals args) 0)
  && truthy (nth_error (positionals args) 1)
  && negb (isEmpty (trim (stdin args))).

Definition credentialsPresent (c : Config) : bool :=
  negb (isEmpty (user c) || isEmpty (pass c)).

(** A reply inside a thread, and a message with references but nothing
    that it replies to. *)
Definition threadedReply : SendOptions.t :=
  {| SendOptions.to := lit "alice@example.com";
     SendOptions.subject := lit "Re: Meeting";
     SendOptions.body := lit "Thanks!";
     SendOptions.inReplyTo := Some (lit "<c@x>");
     SendOptions.references := Some (lit "<a@x> <b@x>");
     SendOptions.quotedMessage := None |}.

Definition referencesOnly : SendOptions.t :=
  {| SendOptions.to := lit "alice@example.com";
     SendOptions.subject := lit "Re: Meeting";
     SendOptions.body := lit "Thanks!";
     SendOptions.inReplyTo := None;
     SendOptions.references := Some (lit "<a@x> <b@x>");
     SendOptions.quotedMessage := None |}.


(* ------------------------------------------------------------------------- *)
(** * Properties *)
(* ------------------------------------------------------------------------- *)

(** ** The scanners *)

Section ScannerFacts.

Variable pat : str -> option nat.
Variable f : str -> str.

Lemma replaceFrom_skip (k : nat) (s : str) :
  replaceFrom pat f k s = replaceFrom pat f 0 (skipn k s).
Proof.
  revert s; induction k as [|k IH]; intros s.
  - reflexivity.
  - destruct s as [|c r]; [reflexivity|]. cbn [replaceFrom skipn]. apply IH.
Qed.

Lemma replaceAll_miss (c : char) (r : str) :
  pat (c :: r) = None ->
  replaceAll pat f (c :: r) = c :: replaceAll pat f r.
Proof. intros H. unfold replaceAll. cbn [replaceFrom]. now rewrite H. Qed.

Lemma splitFrom_skip (k : nat) (cur s : str) :
  splitFrom pat k cur s = splitFrom pat 0 cur (skipn k s).
Proof.
  revert s; induction k as [|k IH]; intros s.
  - reflexivity.
  - destruct s as [|c r]; [reflexivity|]. cbn [splitFrom skipn]. apply IH.
Qed.

Lemma replaceFrom_app (z : str) :
  closedUnder pat z ->
  forall a k, (k <= List.length a)%nat ->
    replaceFrom pat f k (a ++ z)
    = replaceFrom pat f k a ++ replaceFrom pat f 0 z.
Proof.
  intros Hz a; induction a as [|c a IH]; intros k Hk.
  - cbn in Hk. assert (k = 0%nat) by lia. subst k. reflexivity.
  - cbn [app]. cbn [replaceFrom]. destruct k as [|k].
    + destruct (Hz (c :: a)) as [E B]; [discriminate|].
      cbn [app] in E. rewrite E. destruct (pat (c :: a)) as [n|] eqn:P.
      * specialize (B n eq_refl). cbn [List.length] in B.
        rewrite IH by lia. rewrite app_assoc. f_equal. f_equal.
        change (c :: a ++ z) with ((c :: a) ++ z).
        rewrite firstn_app.
        replace (n - List.length (c :: a))%nat with 0%nat
          by (cbn [List.length]; lia).
        cbn [firstn]. now rewrite app_nil_r.
      * cbn [app]. f_equal. apply IH. lia.
    + apply IH. cbn [List.length] in Hk. lia.
Qed.

Lemma replaceAll_app (a z : str) :
  closedUnder pat z ->
  replaceAll pat f (a ++ z) = replaceAll pat f a ++ replaceAll pat f z.
Proof. intros Hz. apply replaceFrom_app; [assumption | lia]. Qed.

End ScannerFacts.

Lemma replaceAll_patChar (c : char) (f : str -> str) (s : str) :
  replaceAll (patChar c) f s
  = flat_map (fun x => if x =? c then f [x] else [x]) s.
Proof.
  induction s as [|x r IH]; [reflexivity|].
  unfold replaceAll in *. cbn [replaceFrom flat_map patChar].
  destruct (x =? c); cbn [firstn pred]; now rewrite IH.
Qed.

Lemma flat_map_flat_map {A B C : Type} (g : B -> list C) (h : A -> list B)
  (l : list A) :
  flat_map g (flat_map h l) = flat_map (fun x => flat_map g (h x)) l.
Proof.
  induction l as [|x l IH]; [reflexivity|].
  cbn [flat_map]. now rewrite flat_map_app, IH.
Qed.

(** ** HTML escaping *)

(** The four passes amount to one pass that rewrites each code unit of the
    input once: the entities written by an earlier pass hold nothing that a
    later pass looks for. *)
Lemma escapeHtml_flat_map (text : str) :
  escapeHtml text = flat_map escapeChar text.
Proof.
  unfold escapeHtml. rewrite !replaceAll_patChar, !flat_map_flat_map.
  apply flat_map_ext. intros c. unfold escapeChar.
  destruct (N.eqb_spec c AMP) as [->|Hamp]; [reflexivity|].
  destruct (N.eqb_spec c LT) as [->|Hlt]; [reflexivity|].
  destruct (N.eqb_spec c GT) as [->|Hgt]; [reflexivity|].
  destruct (N.eqb_spec c DQUOTE) as [->|Hq]; [reflexivity|].
  cbn [flat_map app].
  apply N.eqb_neq in Hamp, Hlt, Hgt, Hq.
  rewrite ?Hamp, ?Hlt, ?Hgt, ?Hq; cbn [flat_map app];
    rewrite ?Hamp, ?Hlt, ?Hgt, ?Hq; cbn [flat_map app];
    rewrite ?Hamp, ?Hlt, ?Hgt, ?Hq; cbn [flat_map app];
    rewrite ?Hamp, ?Hlt, ?Hgt, ?Hq; reflexivity.
Qed.

Lemma escapeHtml_app (a b : str) :
  escapeHtml (a ++ b) = escapeHtml a ++ escapeHtml b.
Proof. rewrite !escapeHtml_flat_map. apply flat_map_app. Qed.

Lemma escapeChar_plain (c : char) :
  isHtmlMeta c = false -> escapeChar c = [c].
Proof.
  unfold isHtmlMeta, escapeChar. intros H.
  apply orb_false_iff in H as [H Hq]. apply orb_false_iff in H as [H Hgt].
  apply orb_false_iff in H as [Hamp Hlt]. now rewrite Hamp, Hlt, Hgt, Hq.
Qed.

Lemma escapeChar_changes (c : char) :
  escapeChar c <> [c] <-> isHtmlMeta c = true.
Proof.
  split.
  - intros H. destruct (isHtmlMeta c) eqn:E; [reflexivity|].
    now apply escapeChar_plain in E.
  - unfold isHtmlMeta, escapeChar. intros H.
    destruct (c =? AMP) eqn:E1; [discriminate|].
    destruct (c =? LT) eqn:E2; [discriminate|].
    destruct (c =? GT) eqn:E3; [discriminate|].
    destruct (c =? DQUOTE) eqn:E4; [discriminate|].
    discriminate.
Qed.

Lemma escapeChar_no_lt (c x : char) : In x (escapeChar c) -> x <> LT.
Proof.
  unfold escapeChar.
  destruct (N.eqb_spec c AMP); [cbn; intuition (subst; discriminate)|].
  destruct (N.eqb_spec c LT); [cbn; intuition (subst; discriminate)|].
  destruct (N.eqb_spec c GT); [cbn; intuition (subst; discriminate)|].
  destruct (N.eqb_spec c DQUOTE); [cbn; intuition (subst; discriminate)|].
  cbn. intros [<-|[]]. assumption.
Qed.

Lemma escapeChar_no_lf (c x : char) :
  c <> LF -> In x (escapeChar c) -> x <> LF.
Proof.
  unfold escapeChar. intros Hc.
  destruct (N.eqb_spec c AMP); [cbn; intuition (subst; discriminate)|].
  destruct (N.eqb_spec c LT); [cbn; intuition (subst; discriminate)|].
  destruct (N.eqb_spec c GT); [cbn; intuition (subst; discriminate)|].
  destruct (N.eqb_spec c DQUOTE); [cbn; intuition (subst; discriminate)|].
  cbn. intros [<-|[]]. assumption.
Qed.

(** What [textToHtml] makes of one code unit. *)
Lemma textToHtml_flat_map (text : str) :
  textToHtml text
  = flat_map (fun c => if c =? LF then brTag ++ [LF] else escapeChar c) text.
Proof.
  unfold textToHtml. rewrite replaceAll_patChar, escapeHtml_flat_map.
  rewrite flat_map_flat_map. apply flat_map_ext. intros c.
  destruct (N.eqb_spec c LF) as [->|Hc]; [reflexivity|].
  assert (H : forall l, (forall x, In x l -> x <> LF) ->
            flat_map (fun x => if x =? LF then brTag ++ [LF] else [x]) l = l).
  { induction l as [|x l IH]; intros Hl; [reflexivity|].
    cbn [flat_map]. rewrite IH by (intros; apply Hl; now right).
    destruct (N.eqb_spec x LF) as [E|_]; [|reflexivity].
    exfalso. apply (Hl x); [now left | assumption]. }
  apply H. intros x Hx. now apply (escapeChar_no_lf c).
Qed.

Lemma escapeHtml_single (c : char) : escapeHtml [c] = escapeChar c.
Proof. rewrite escapeHtml_flat_map. cbn [flat_map]. apply app_nil_r. Qed.

Lemma isHtmlMeta_cases (c : char) :
  isHtmlMeta c = true -> In c [AMP; LT; GT; DQUOTE].
Proof.
  unfold isHtmlMeta. intros H.
  destruct (N.eqb_spec c AMP); [subst; cbn; tauto|].
  destruct (N.eqb_spec c LT); [subst; cbn; tauto|].
  destruct (N.eqb_spec c GT); [subst; cbn; tauto|].
  destruct (N.eqb_spec c DQUOTE); [subst; cbn; tauto|].
  discriminate.
Qed.

(** C5 (amended).  For every input string, the conversion escapes the four
    metacharacters ampersand, less-than, greater-than and double quote, and
    no other code unit (an apostrophe stays as it is); each code unit of the
    input is rewritten once, so the ampersand of an entity is never escaped
    again; then every LF becomes the line-break tag followed by that LF, a
    CR in front of it staying where it was. *)
Theorem textToHtml_escapes_then_breaks (text : str) :
  escapeHtml text = flat_map escapeChar text
  /\ textToHtml text
     = flat_map (fun c => if c =? LF then brTag ++ [LF] else escapeChar c) text
  /\ escapeChar AMP = lit "&amp;" /\ escapeChar LT = lit "&lt;"
  /\ escapeChar GT = lit "&gt;" /\ escapeChar DQUOTE = lit "&quot;"
  /\ (forall c, isHtmlMeta c = false <-> escapeChar c = [c]).
Proof.
  split; [apply escapeHtml_flat_map|].
  split; [apply textToHtml_flat_map|].
  repeat (split; [reflexivity|]).
  intros c. split.
  - apply escapeChar_plain.
  - intros H. destruct (isHtmlMeta c) eqn:E; [|reflexivity].
    apply escapeChar_changes in E. contradiction.
Qed.

(** C5 as stated fails: no five distinct code units are escaped, the
    apostrophe in particular is not; and on a CRLF line ending the tag lands
    between the CR and the LF. *)
Lemma textToHtml_five_metacharacters_counterexample :
  ~ (exists cs : list char,
        NoDup cs /\ List.length cs = 5%nat
        /\ forall c, In c cs -> escapeHtml [c] <> [c])
  /\ escapeHtml (lit "'") = lit "'"
  /\ textToHtml (lit "a" ++ [CR; LF] ++ lit "b")
     = lit "a" ++ [CR] ++ lit "<br>" ++ [LF] ++ lit "b".
Proof.
  split; [|split; reflexivity].
  intros (cs & Hnd & Hlen & Hesc).
  assert (Hincl : incl cs [AMP; LT; GT; DQUOTE]).
  { intros c Hc. apply isHtmlMeta_cases. apply escapeChar_changes.
    rewrite <- escapeHtml_single. now apply Hesc. }
  pose proof (NoDup_incl_length Hnd Hincl) as Hle.
  rewrite Hlen in Hle. cbn in Hle. lia.
Qed.

(** ** Markup detection *)

Lemma lastGt_some (s : str) (i : nat) :
  lastGt s = Some i -> exists b d, s = b ++ [GT] ++ d.
Proof.
  revert i; induction s as [|c r IH]; intros i H; [discriminate|].
  cbn [lastGt] in H. destruct (lastGt r) as [j|] eqn:E.
  - destruct (IH j eq_refl) as (b & d & ->). now exists (c :: b), d.
  - destruct (N.eqb_spec c GT) as [->|_]; [|discriminate].
    now exists [], r.
Qed.

Lemma lastGt_app (b d : str) : lastGt (b ++ [GT] ++ d) <> None.
Proof.
  induction b as [|c b IH]; cbn [app lastGt].
  - destruct (lastGt d); rewrite ?N.eqb_refl; discriminate.
  - cbn [app] in IH. destruct (lastGt (b ++ GT :: d));
      [discriminate | contradiction].
Qed.

Lemma patOpenTag_some (s : str) (n : nat) :
  patOpenTag s = Some n ->
  exists c b d, s = [LT; c] ++ b ++ [GT] ++ d /\ isAsciiLetter c = true.
Proof.
  destruct s as [|c1 [|c2 rest]]; try discriminate.
  cbn [patOpenTag]. destruct (N.eqb_spec c1 LT) as [->|_]; [|discriminate].
  cbn [andb]. destruct (isAsciiLetter c2) eqn:L; [|discriminate].
  destruct (lastGt rest) as [i|] eqn:E; [|discriminate]. intros _.
  destruct (lastGt_some _ _ E) as (b & d & ->). now exists c2, b, d.
Qed.

(** [isHtml] holds exactly on the texts with an opening tag. *)
Lemma isHtml_iff (text : str) : isHtml text = true <-> hasOpenTag text.
Proof.
  unfold isHtml, hasOpenTag. split.
  - induction text as [|x r IH]; cbn [test].
    + destruct (patOpenTag []) eqn:E; [discriminate E | discriminate].
    + destruct (patOpenTag (x :: r)) as [n|] eqn:E.
      * intros _. destruct (patOpenTag_some _ _ E) as (c & b & d & -> & L).
        now exists [], c, b, d.
      * intros H. destruct (IH H) as (a & c & b & d & -> & L).
        now exists (x :: a), c, b, d.
  - intros (a & c & b & d & -> & L). induction a as [|x a IH].
    + cbn [app test patOpenTag]. rewrite N.eqb_refl, L. cbn [andb].
      pose proof (lastGt_app b d) as Hne. cbn [app] in Hne.
      destruct (lastGt (b ++ GT :: d)); [reflexivity | contradiction].
    + cbn [app test]. destruct (patOpenTag _); [reflexivity | exact IH].
Qed.

Lemma isHtml_needs_lt (text : str) :
  (forall c, In c text -> c <> LT) -> isHtml text = false.
Proof.
  intros H. destruct (isHtml text) eqn:E; [|reflexivity].
  apply isHtml_iff in E. destruct E as (a & c & b & d & -> & _).
  exfalso. apply (H LT); [|reflexivity].
  apply in_or_app. right. now left.
Qed.

(** ** Round trip through the line-break tags *)

Lemma stripInsertedTags_plain (e r : str) :
  (forall x, In x e -> x <> LT) ->
  stripInsertedTags (e ++ r) = e ++ stripInsertedTags r.
Proof.
  unfold stripInsertedTags.
  induction e as [|x e IH]; intros He; [reflexivity|].
  cbn [app]. rewrite replaceAll_miss.
  - f_equal. apply IH. intros y Hy. apply He. now right.
  - unfold patLiteral. change brTag with [LT; 98; 114; GT].
    cbn [startsWith].
    assert (Hx : x <> LT) by (apply He; now left).
    apply N.eqb_neq in Hx. rewrite N.eqb_sym in Hx. now rewrite Hx.
Qed.

Lemma stripInsertedTags_break (r : str) :
  stripInsertedTags (brTag ++ [LF] ++ r) = LF :: stripInsertedTags r.
Proof. reflexivity. Qed.

(** Taking the tags out of the converted text leaves the escaped text. *)
Lemma stripInsertedTags_textToHtml (text : str) :
  stripInsertedTags (textToHtml text) = escapeHtml text.
Proof.
  rewrite textToHtml_flat_map, escapeHtml_flat_map.
  induction text as [|c r IH]; [reflexivity|].
  cbn [flat_map]. destruct (N.eqb_spec c LF) as [->|Hc].
  - rewrite <- app_assoc, stripInsertedTags_break, IH. reflexivity.
  - rewrite stripInsertedTags_plain, IH; [reflexivity|].
    intros x. apply escapeChar_no_lt.
Qed.

Lemma escapeHtml_plain (text : str) :
  forallb (fun c => negb (isHtmlMeta c)) text = true -> escapeHtml text = text.
Proof.
  rewrite escapeHtml_flat_map.
  induction text as [|c r IH]; [reflexivity|].
  cbn [forallb flat_map]. intros H. apply andb_true_iff in H as [Hc Hr].
  apply negb_true_iff in Hc. now rewrite (escapeChar_plain _ Hc), IH.
Qed.

(** C4 (amended).  For every input string holding none of the characters
    ampersand, less-than, greater-than and double quote (such a string has
    no markup-like substring), the plain-text-to-HTML transformation
    followed by the removal of the inserted line-break tags gives the
    original string back exactly. *)
Theorem textToHtml_round_trip (text : str) :
  forallb (fun c => negb (isHtmlMeta c)) text = true ->
  isHtml text = false /\ stripInsertedTags (textToHtml text) = text.
Proof.
  intros H. split.
  - apply isHtml_needs_lt. intros c Hc ->.
    rewrite forallb_forall in H. specialize (H _ Hc). discriminate H.
  - rewrite stripInsertedTags_textToHtml. now apply escapeHtml_plain.
Qed.

Lemma textToHtml_round_trip_witness :
  isHtml (lit "Dear all," ++ [LF] ++ lit "see you at 5 = five.") = false
  /\ stripInsertedTags
       (textToHtml (lit "Dear all," ++ [LF] ++ lit "see you at 5 = five."))
     = lit "Dear all," ++ [LF] ++ lit "see you at 5 = five.".
Proof.
  apply (textToHtml_round_trip
           (lit "Dear all," ++ [LF] ++ lit "see you at 5 = five.")).
  reflexivity.
Defined.

(** C4 as stated fails: a text without markup whose ampersand comes back
    as an entity. *)
Lemma textToHtml_round_trip_counterexample :
  isHtml (lit "plain & simple") = false
  /\ stripInsertedTags (textToHtml (lit "plain & simple"))
     = lit "plain &amp; simple"
  /\ stripInsertedTags (textToHtml (lit "plain & simple"))
     <> lit "plain & simple".
Proof. split; [reflexivity | split; [reflexivity | discriminate]]. Qed.

(** ** Quoted-printable decoding *)

Ltac case_chars :=
  repeat match goal with
         | |- context [N.eqb ?a ?b] => is_var a; destruct (N.eqb a b) eqn:?
         | |- context [isHexDigit ?a] => is_var a; destruct (isHexDigit a) eqn:?
         end.

Lemma patSoftBreak_closed (x : str) : closedUnder patSoftBreak (EQUALS :: x).
Proof.
  intros y Hy. destruct y as [|c [|c2 [|c3 y]]]; [congruence| | |];
    unfold patSoftBreak, eolAt, isLF, isCR; cbn [app List.length];
    case_chars; cbn; split; try reflexivity; intros n Hn; 
    try discriminate; injection Hn as <-; lia.
Qed.

Lemma patHexEscape_closed (x : str) : closedUnder patHexEscape (EQUALS :: x).
Proof.
  intros y Hy. destruct y as [|c [|h1 [|h2 y]]]; [congruence| | |];
    unfold patHexEscape; cbn [app List.length].
  - destruct x as [|x1 x]; [split; [reflexivity | discriminate]|].
    change (isHexDigit EQUALS) with false.
    rewrite andb_false_r. cbn [andb]. split; [reflexivity | discriminate].
  - change (isHexDigit EQUALS) with false. rewrite andb_false_r.
    split; [reflexivity | discriminate].
  - split; [reflexivity|]. intros n Hn.
    destruct ((c =? EQUALS) && isHexDigit h1 && isHexDigit h2);
      [|discriminate]. injection Hn as <-. lia.
Qed.

Lemma patSoftBreak_other (c : char) (r : str) :
  (c =? EQUALS) = false -> patSoftBreak (c :: r) = None.
Proof. intros H. cbn [patSoftBreak]. now rewrite H. Qed.

Lemma patHexEscape_other (c : char) (r : str) :
  (c =? EQUALS) = false -> patHexEscape (c :: r) = None.
Proof.
  intros H. destruct r as [|h1 [|h2 r]]; cbn [patHexEscape];
    try reflexivity. now rewrite H.
Qed.

Lemma isHexDigit_bounds (h : char) :
  isHexDigit h = true -> 48 <= h <= 102 /\ hexValue h <= 15.
Proof.
  unfold isHexDigit, hexValue. intros H.
  destruct (N.leb_spec 48 h), (N.leb_spec h 57), (N.leb_spec 65 h),
    (N.leb_spec h 70), (N.leb_spec 97 h), (N.leb_spec h 102);
    cbn in H |- *; try discriminate; lia.
Qed.

Lemma isHexDigit_ordinary (h : char) :
  isHexDigit h = true ->
  (h =? EQUALS) = false /\ isLF h = false /\ isCR h = false.
Proof.
  intros H. unfold isLF, isCR. repeat split.
  - destruct (N.eqb_spec h EQUALS) as [->|_]; [discriminate H | reflexivity].
  - destruct (N.eqb_spec h LF) as [->|_]; [discriminate H | reflexivity].
  - destruct (N.eqb_spec h CR) as [->|_]; [discriminate H | reflexivity].
Qed.

Lemma removeSoftBreaks_app_equals (a x : str) :
  removeSoftBreaks (a ++ EQUALS :: x)
  = removeSoftBreaks a ++ removeSoftBreaks (EQUALS :: x).
Proof. apply replaceAll_app, patSoftBreak_closed. Qed.

Lemma decodeHexEscapes_app_equals (a x : str) :
  decodeHexEscapes (a ++ EQUALS :: x)
  = decodeHexEscapes a ++ decodeHexEscapes (EQUALS :: x).
Proof. apply replaceAll_app, patHexEscape_closed. Qed.

(** An equals sign that starts no soft break is kept by the first pass,
    and so are the two code units after it when neither is an equals
    sign. *)
Lemma removeSoftBreaks_keeps (c1 c2 : char) (b : str) :
  startsLineEnd c1 c2 = false ->
  (c1 =? EQUALS) = false -> (c2 =? EQUALS) = false ->
  removeSoftBreaks (EQUALS :: c1 :: c2 :: b)
  = EQUALS :: c1 :: c2 :: removeSoftBreaks b.
Proof.
  intros Hle H1 H2. unfold removeSoftBreaks.
  rewrite replaceAll_miss.
  - rewrite replaceAll_miss by now apply patSoftBreak_other.
    rewrite replaceAll_miss by now apply patSoftBreak_other. reflexivity.
  - unfold startsLineEnd in Hle. cbn [patSoftBreak eolAt].
    rewrite N.eqb_refl. destruct (isLF c1); [discriminate|].
    destruct (isCR c1); [|reflexivity]. cbn in Hle. now rewrite Hle.
Qed.

Lemma decodeHexEscapes_escape (h1 h2 : char) (r : str) :
  isHexDigit h1 = true -> isHexDigit h2 = true ->
  decodeHexEscapes (EQUALS :: h1 :: h2 :: r)
  = (16 * hexValue h1 + hexValue h2) :: decodeHexEscapes r.
Proof.
  intros H1 H2. unfold decodeHexEscapes, replaceAll.
  cbn [replaceFrom patHexEscape]. rewrite N.eqb_refl, H1, H2.
  cbn [andb pred firstn replaceFrom hexReplacement skipn fromCharCode
         parseHex fold_left app].
  apply isHexDigit_bounds in H1 as [_ B1], H2 as [_ B2].
  f_equal. rewrite N.mod_small by lia. lia.
Qed.

Lemma decodeHexEscapes_keeps (c1 c2 : char) (r : str) :
  isHexDigit c1 && isHexDigit c2 = false ->
  (c1 =? EQUALS) = false -> (c2 =? EQUALS) = false ->
  decodeHexEscapes (EQUALS :: c1 :: c2 :: r)
  = EQUALS :: c1 :: c2 :: decodeHexEscapes r.
Proof.
  intros Hh H1 H2. unfold decodeHexEscapes.
  rewrite replaceAll_miss.
  - rewrite replaceAll_miss by now apply patHexEscape_other.
    rewrite replaceAll_miss by now apply patHexEscape_other. reflexivity.
  - cbn [patHexEscape]. rewrite N.eqb_refl. cbn [andb]. now rewrite Hh.
Qed.

Lemma replaceAll_untouched (pat : str -> option nat) (f : str -> str)
  (s : str) :
  (forall c r, In c s -> pat (c :: r) = None) -> replaceAll pat f s = s.
Proof.
  induction s as [|c r IH]; intros H; [reflexivity|].
  rewrite replaceAll_miss by (apply H; now left).
  f_equal. apply IH. intros c' r' Hc. apply H. now right.
Qed.

Lemma decodeQuotedPrintable_no_equals (s : str) :
  ~ In EQUALS s -> decodeQuotedPrintable s = s.
Proof.
  intros H. unfold decodeQuotedPrintable, removeSoftBreaks, decodeHexEscapes.
  assert (Hne : forall c, In c s -> (c =? EQUALS) = false).
  { intros c Hc. apply N.eqb_neq. intros ->. contradiction. }
  rewrite (replaceAll_untouched patSoftBreak).
  - apply replaceAll_untouched. intros c r Hc.
    now apply patHexEscape_other, Hne.
  - intros c r Hc. now apply patSoftBreak_other, Hne.
Qed.

(** C3.  Quoted-printable decoding is a total function, so it reports no
    error on any input.  (1) A soft line break, an equals sign directly
    followed by LF or CRLF, is taken out with nothing put in its place: the
    result is the hex-decoding of the text before it and the text after it,
    each freed of its own soft breaks, joined directly.  (2) An equals sign
    followed by two hexadecimal digits becomes the single code unit of that
    value, wherever it stands.  (3) A malformed escape, an equals sign
    followed by two code units that are not both hexadecimal digits (and
    that neither start a line ending nor are equals signs themselves, which
    would start a token of their own), comes out as it went in.  (4) A text
    without any equals sign is returned unchanged. *)
Theorem decodeQuotedPrintable_contract :
  (forall a sb b, isSoftBreak sb ->
     removeSoftBreaks (a ++ sb ++ b)
     = removeSoftBreaks a ++ removeSoftBreaks b
     /\ decodeQuotedPrintable (a ++ sb ++ b)
        = decodeHexEscapes (removeSoftBreaks a ++ removeSoftBreaks b))
  /\ (forall a h1 h2 b, isHexDigit h1 = true -> isHexDigit h2 = true ->
        decodeQuotedPrintable (a ++ [EQUALS; h1; h2] ++ b)
        = decodeQuotedPrintable a ++ [16 * hexValue h1 + hexValue h2]
          ++ decodeQuotedPrintable b)
  /\ (forall a c1 c2 b, malformedEscape c1 c2 = true ->
        decodeQuotedPrintable (a ++ [EQUALS; c1; c2] ++ b)
        = decodeQuotedPrintable a ++ [EQUALS; c1; c2]
          ++ decodeQuotedPrintable b)
  /\ (forall s, ~ In EQUALS s -> decodeQuotedPrintable s = s).
Proof.
  split; [|split; [|split]].
  - intros a sb b Hsb.
    assert (E : removeSoftBreaks (a ++ sb ++ b)
                = removeSoftBreaks a ++ removeSoftBreaks b).
    { destruct Hsb as [-> | ->]; cbn [app];
        rewrite removeSoftBreaks_app_equals; f_equal; reflexivity. }
    split; [exact E|]. unfold decodeQuotedPrintable. now rewrite E.
  - intros a h1 h2 b H1 H2. unfold decodeQuotedPrintable. cbn [app].
    destruct (isHexDigit_ordinary _ H1) as (E1 & L1 & R1).
    destruct (isHexDigit_ordinary _ H2) as (E2 & _ & _).
    rewrite removeSoftBreaks_app_equals, removeSoftBreaks_keeps;
      [|unfold startsLineEnd; now rewrite L1, R1|assumption|assumption].
    rewrite decodeHexEscapes_app_equals, decodeHexEscapes_escape
      by assumption.
    reflexivity.
  - intros a c1 c2 b H. unfold malformedEscape in H.
    apply andb_true_iff in H as [H Hle]. apply andb_true_iff in H as [H E2].
    apply andb_true_iff in H as [Hh E1].
    apply negb_true_iff in Hle, E2, E1, Hh.
    unfold decodeQuotedPrintable. cbn [app].
    rewrite removeSoftBreaks_app_equals, removeSoftBreaks_keeps
      by assumption.
    rewrite decodeHexEscapes_app_equals, decodeHexEscapes_keeps
      by assumption.
    reflexivity.
  - apply decodeQuotedPrintable_no_equals.
Qed.

Lemma decodeQuotedPrintable_contract_witness :
  decodeQuotedPrintable (lit "long=" ++ [CR; LF] ++ lit "line")
  = decodeHexEscapes (removeSoftBreaks (lit "long")
                      ++ removeSoftBreaks (lit "line"))
  /\ decodeQuotedPrintable (lit "Caf" ++ lit "=C3" ++ lit "=A9")
     = decodeQuotedPrintable (lit "Caf") ++ [195]
       ++ decodeQuotedPrintable (lit "=A9")
  /\ decodeQuotedPrintable (lit "a" ++ lit "=G1" ++ lit "z")
     = decodeQuotedPrintable (lit "a") ++ lit "=G1"
       ++ decodeQuotedPrintable (lit "z")
  /\ decodeQuotedPrintable (lit "plain text only") = lit "plain text only".
Proof.
  destruct decodeQuotedPrintable_contract as (Hsoft & Hhex & Hbad & Hnone).
  split; [|split; [|split]].
  - apply (Hsoft (lit "long") [EQUALS; CR; LF] (lit "line")). now right.
  - apply (Hhex (lit "Caf") 67 51 (lit "=A9")); reflexivity.
  - apply (Hbad (lit "a") 71 49 (lit "z")). reflexivity.
  - apply Hnone. cbn. intuition discriminate.
Defined.

Example decodeQuotedPrintable_samples :
  decodeQuotedPrintable (lit "Caf=C3=A9") = lit "Caf" ++ [195; 169]
  /\ decodeQuotedPrintable (lit "a=3Db") = lit "a=b"
  /\ decodeQuotedPrintable (lit "=zz=") = lit "=zz="
  /\ decodeQuotedPrintable (lit "=e9") = [233].
Proof. repeat split. Qed.

(** ** Splitting at blank lines *)

Lemma patBlankLine_padded (y z : str) :
  y <> [] -> patBlankLine y = None -> endsWithEol y = false ->
  patBlankLine (y ++ z) = None.
Proof.
  intros Hy. destruct y as [|c1 [|c2 [|c3 [|c4 y]]]]; [congruence| | | |];
    unfold patBlankLine, eolAt; cbn [app endsWithEol];
    destruct (isLF c1), (isCR c1); cbn; try discriminate; try reflexivity;
    try (destruct (isLF c2), (isCR c2); cbn; try discriminate;
         try reflexivity;
         try (destruct (isLF c3), (isCR c3); cbn; try discriminate;
              try reflexivity;
              try (destruct (isLF c4), (isCR c4); cbn; try discriminate;
                   try reflexivity))).
Qed.

Lemma test_cons_false (pat : str -> option nat) (c : char) (r : str) :
  test pat (c :: r) = false -> pat (c :: r) = None /\ test pat r = false.
Proof.
  cbn [test]. destruct (pat (c :: r)); [discriminate|]. now split.
Qed.

Lemma endsWithEol_cons (c : char) (r : str) :
  r <> [] -> endsWithEol (c :: r) = endsWithEol r.
Proof. destruct r; [congruence | reflexivity]. Qed.

Lemma unbroken_tail (c : char) (r : str) : unbroken (c :: r) -> unbroken r.
Proof.
  intros [Ht He]. apply test_cons_false in Ht as [_ Ht]. split; [exact Ht|].
  destruct r as [|x r]; [reflexivity|]. now rewrite endsWithEol_cons in He.
Qed.

Lemma splitFrom_boundary (cur sep rest : str) :
  isBlankLine sep ->
  splitFrom patBlankLine 0 cur (sep ++ rest)
  = rev cur :: split patBlankLine rest.
Proof. intros [->|[->|[->| ->]]]; reflexivity. Qed.

(** A block of lines followed by a blank-line boundary is one segment. *)
Lemma splitFrom_unbroken (h sep rest : str) :
  unbroken h -> isBlankLine sep ->
  forall cur,
    splitFrom patBlankLine 0 cur (h ++ sep ++ rest)
    = (rev cur ++ h) :: split patBlankLine rest.
Proof.
  intros Hh Hsep. induction h as [|c h IH]; intros cur.
  - cbn [app]. rewrite app_nil_r. now apply splitFrom_boundary.
  - assert (Hpat : patBlankLine ((c :: h) ++ sep ++ rest) = None).
    { destruct Hh as [Ht He]. apply test_cons_false in Ht as [Hp _].
      apply patBlankLine_padded; [discriminate | assumption | assumption]. }
    cbn [app] in Hpat |- *. cbn [splitFrom]. rewrite Hpat.
    rewrite IH by (eapply unbroken_tail; eassumption).
    cbn [rev]. now rewrite <- app_assoc.
Qed.

Lemma split_unbroken (h sep rest : str) :
  unbroken h -> isBlankLine sep ->
  split patBlankLine (h ++ sep ++ rest) = h :: split patBlankLine rest.
Proof. intros Hh Hsep. unfold split at 1. now rewrite splitFrom_unbroken. Qed.

Lemma splitFrom_no_match (pat : str -> option nat) (s : str) :
  test pat s = false ->
  forall cur, splitFrom pat 0 cur s = [rev cur ++ s].
Proof.
  induction s as [|c r IH]; intros Ht cur.
  - cbn. now rewrite app_nil_r.
  - apply test_cons_false in Ht as [Hp Ht]. cbn [splitFrom]. rewrite Hp.
    rewrite IH by assumption. cbn [rev]. now rewrite <- app_assoc.
Qed.

Lemma split_no_match (pat : str -> option nat) (s : str) :
  test pat s = false -> split pat s = [s].
Proof. intros H. unfold split. now rewrite splitFrom_no_match. Qed.

Lemma splitFrom_nonempty (pat : str -> option nat) (s : str) :
  forall k cur, splitFrom pat k cur s <> [].
Proof.
  induction s as [|c r IH]; intros k cur; cbn [splitFrom]; [discriminate|].
  destruct k; [|apply IH]. destruct (pat (c :: r)); [discriminate | apply IH].
Qed.

Lemma join_cons (sep p : str) (ps : list str) :
  ps <> [] -> join sep (p :: ps) = p ++ sep ++ join sep ps.
Proof. destruct ps; [congruence | reflexivity]. Qed.

(** The text after the first blank-line boundary, with every further
    boundary rewritten as LF LF. *)
Lemma afterFirstBlank_unbroken (h sep rest : str) :
  unbroken h -> isBlankLine sep ->
  afterFirstBlank (h ++ sep ++ rest)
  = join [LF; LF] (split patBlankLine rest).
Proof.
  intros Hh Hsep. unfold afterFirstBlank. now rewrite split_unbroken.
Qed.


Lemma headersOf_unbroken (h sep rest : str) :
  unbroken h -> isBlankLine sep -> headersOf (h ++ sep ++ rest) = h.
Proof. intros Hh Hsep. unfold headersOf. now rewrite split_unbroken. Qed.

(** ** The boundary pattern is the boundary, literally *)

Lemma escapeRegExp_flat_map (boundary : str) :
  escapeRegExp boundary
  = flat_map (fun c => if isRegexSyntax c then [BACKSLASH; c] else [c])
      boundary.
Proof.
  unfold escapeRegExp, replaceAll.
  induction boundary as [|c r IH]; [reflexivity|].
  cbn [replaceFrom flat_map patRegexSyntax].
  destruct (isRegexSyntax c); cbn [firstn pred app]; now rewrite IH.
Qed.

Lemma literalOfSource_escapeRegExp (boundary : str) :
  literalOfSource (escapeRegExp boundary) = Some boundary.
Proof.
  rewrite escapeRegExp_flat_map.
  induction boundary as [|c r IH]; [reflexivity|].
  cbn [flat_map]. destruct (isRegexSyntax c) eqn:S.
  - cbn [app literalOfSource]. rewrite N.eqb_refl, S, IH. reflexivity.
  - cbn [app literalOfSource]. rewrite S, IH.
    destruct (N.eqb_spec c BACKSLASH) as [->|_]; [discriminate S|reflexivity].
Qed.

(** The pattern built from the escaped boundary matches the two dashes and
    the boundary as written, whatever characters the boundary holds. *)
Lemma partsOf_literal (boundary rawBody : str) :
  partsOf boundary rawBody
  = split (patLiteral (lit "--" ++ boundary)) rawBody.
Proof.
  unfold partsOf. cbn [lit list_ascii_of_string List.map app].
  cbn [literalOfSource]. 
  change (N_of_ascii "-" =? BACKSLASH) with false.
  change (isRegexSyntax (N_of_ascii "-")) with false. cbn iota.
  now rewrite literalOfSource_escapeRegExp.
Qed.

Lemma startsWith_split (d s : str) :
  startsWith d s = true -> s = d ++ skipn (List.length d) s.
Proof.
  revert s; induction d as [|c d IH]; intros s H; [reflexivity|].
  destruct s as [|x s]; [discriminate|]. cbn [startsWith] in H.
  apply andb_true_iff in H as [E H]. apply N.eqb_eq in E. subst x.
  cbn [List.length skipn app]. f_equal. now apply IH.
Qed.

(** Putting the token back between the parts gives the body back. *)
Lemma join_splitFrom_literal (d : str) (n : nat) :
  d <> [] ->
  forall s cur, (List.length s <= n)%nat ->
    join d (splitFrom (patLiteral d) 0 cur s) = rev cur ++ s.
Proof.
  intros Hd. induction n as [|n IH]; intros s cur Hlen.
  - destruct s; [|cbn in Hlen; lia]. cbn. now rewrite app_nil_r.
  - destruct s as [|c r]; [cbn; now rewrite app_nil_r|]. cbn [splitFrom].
    unfold patLiteral at 1. destruct (startsWith d (c :: r)) eqn:E.
    + rewrite splitFrom_skip. rewrite join_cons by apply splitFrom_nonempty.
      apply startsWith_split in E.
      destruct d as [|x d]; [congruence|].
      cbn [List.length pred skipn app] in E |- *.
      injection E as -> E. rewrite IH.
      * cbn [rev app]. now rewrite <- E.
      * cbn [List.length] in Hlen. rewrite length_skipn. lia.
    + rewrite IH by (cbn [List.length] in Hlen; lia).
      cbn [rev]. now rewrite <- app_assoc.
Qed.

Lemma join_split_literal (d s : str) :
  d <> [] -> join d (split (patLiteral d) s) = s.
Proof.
  intros Hd. unfold split.
  now rewrite (join_splitFrom_literal d (List.length s)).
Qed.

(** ** The loop over the parts *)

Lemma scanPart_plain (acc : Bodies) (part : str) :
  plainBody (scanPart acc part)
  = if isPlainPart part then decodeQuotedPrintable (afterFirstBlank part)
    else plainBody acc.
Proof.
  unfold scanPart, isPlainPart. destruct (includes plainMarker part);
    [reflexivity|]. now destruct (includes htmlMarker part).
Qed.

Lemma scanPart_html (acc : Bodies) (part : str) :
  htmlBody (scanPart acc part)
  = if isHtmlPart part then decodeQuotedPrintable (afterFirstBlank part)
    else htmlBody acc.
Proof.
  unfold scanPart, isHtmlPart. destruct (includes plainMarker part);
    [reflexivity|]. now destruct (includes htmlMarker part).
Qed.

Lemma fold_scanPart_plain (parts : list str) (acc : Bodies) :
  plainBody (fold_left scanPart parts acc)
  = match lastContent isPlainPart parts with
    | Some content => content
    | None => plainBody acc
    end.
Proof.
  unfold lastContent. induction parts as [|part parts IH] using rev_ind.
  - reflexivity.
  - rewrite fold_left_app, rev_app_distr. cbn [fold_left rev app find].
    rewrite scanPart_plain. destruct (isPlainPart part); [reflexivity|].
    exact IH.
Qed.

Lemma fold_scanPart_html (parts : list str) (acc : Bodies) :
  htmlBody (fold_left scanPart parts acc)
  = match lastContent isHtmlPart parts with
    | Some content => content
    | None => htmlBody acc
    end.
Proof.
  unfold lastContent. induction parts as [|part parts IH] using rev_ind.
  - reflexivity.
  - rewrite fold_left_app, rev_app_distr. cbn [fold_left rev app find].
    rewrite scanPart_html. destruct (isHtmlPart part); [reflexivity|].
    exact IH.
Qed.

(** ** Decomposition *)

Lemma decompose_multipart (sourceText boundary : str) :
  boundaryMatch (headersOf sourceText) = Some boundary ->
  decompose sourceText
  = fold_left scanPart (partsOf boundary (rawBodyOf sourceText))
      {| plainBody := []; htmlBody := [] |}.
Proof. intros H. unfold decompose. now rewrite H. Qed.

Lemma decompose_single_part (sourceText : str) :
  boundaryMatch (headersOf sourceText) = None ->
  decompose sourceText
  = {| plainBody := decodeQuotedPrintable (rawBodyOf sourceText);
       htmlBody := [] |}.
Proof. intros H. unfold decompose. now rewrite H. Qed.

(** C1 (amended).  For every multipart raw message source (headers holding
    a boundary parameter), the decomposer splits the body on the literal
    boundary token, two dashes and the boundary as written, so that the
    parts joined by the token give the body back; among these parts it
    keeps the last one holding the declaration of text/plain as the plain
    body, and the last one holding the declaration of text/html and not
    that of text/plain as the HTML body.  A later part of the same declared
    type replaces the earlier one; nothing is merged. *)
Theorem multipart_last_part_kept (sourceText boundary : str) :
  boundaryMatch (headersOf sourceText) = Some boundary ->
  let token := lit "--" ++ boundary in
  let parts := split (patLiteral token) (rawBodyOf sourceText) in
  partsOf boundary (rawBodyOf sourceText) = parts
  /\ join token parts = rawBodyOf sourceText
  /\ plainBody (decompose sourceText)
     = match lastContent isPlainPart parts with
       | Some content => content
       | None => []
       end
  /\ htmlBody (decompose sourceText)
     = match lastContent isHtmlPart parts with
       | Some content => content
       | None => []
       end.
Proof.
  intros H token parts. subst token parts.
  split; [apply partsOf_literal|].
  split; [apply join_split_literal; discriminate|].
  rewrite (decompose_multipart _ _ H), partsOf_literal.
  split; [apply fold_scanPart_plain | apply fold_scanPart_html].
Qed.

Lemma multipart_last_part_kept_witness :
  partsOf (lit "XYZ") (rawBodyOf twoPlainParts)
  = split (patLiteral (lit "--" ++ lit "XYZ")) (rawBodyOf twoPlainParts)
  /\ join (lit "--" ++ lit "XYZ")
       (split (patLiteral (lit "--" ++ lit "XYZ")) (rawBodyOf twoPlainParts))
     = rawBodyOf twoPlainParts
  /\ plainBody (decompose twoPlainParts)
     = match lastContent isPlainPart
               (split (patLiteral (lit "--" ++ lit "XYZ"))
                  (rawBodyOf twoPlainParts)) with
       | Some content => content
       | None => []
       end
  /\ htmlBody (decompose twoPlainParts)
     = match lastContent isHtmlPart
               (split (patLiteral (lit "--" ++ lit "XYZ"))
                  (rawBodyOf twoPlainParts)) with
       | Some content => content
       | None => []
       end.
Proof.
  apply (multipart_last_part_kept twoPlainParts (lit "XYZ")). reflexivity.
Defined.

(** C1 as stated fails: of two parts of type text/plain, the second is the
    one that is kept. *)
Lemma multipart_first_part_counterexample :
  boundaryMatch (headersOf twoPlainParts) = Some (lit "XYZ")
  /\ partsOf (lit "XYZ") (rawBodyOf twoPlainParts)
     = [ [];
         CRLF ++ lit "Content-Type: text/plain" ++ [LF; LF] ++ lit "first"
         ++ CRLF;
         CRLF ++ lit "Content-Type: text/plain" ++ [LF; LF] ++ lit "second"
         ++ CRLF;
         lit "--" ++ CRLF ]
  /\ plainBody (decompose twoPlainParts) = lit "second" ++ CRLF
  /\ trim (plainBody (decompose twoPlainParts)) <> lit "first".
Proof.
  split; [reflexivity|]. split; [reflexivity|]. split; [reflexivity|].
  discriminate.
Qed.

(** The example of the specification: one part of each type. *)
Example decompose_plainAndHtml :
  trim (plainBody (decompose plainAndHtml)) = lit "Hello"
  /\ trim (htmlBody (decompose plainAndHtml)) = lit "<p>Hello</p>".
Proof. split; reflexivity. Qed.

Lemma relinked_no_blank (x : str) :
  test patBlankLine x = false -> relinked x = x.
Proof. intros H. unfold relinked. now rewrite split_no_match. Qed.



Lemma eolAt_some (s : str) (n : nat) :
  eolAt s = Some n ->
  (n = 1%nat /\ s = LF :: skipn 1 s) \/ (n = 2%nat /\ s = CR :: LF :: skipn 2 s).
Proof.
  unfold eolAt, isLF, isCR. destruct s as [|c1 r]; [discriminate|].
  destruct (N.eqb_spec c1 LF) as [->|_].
  - intros H. injection H as <-. now left.
  - destruct (N.eqb_spec c1 CR) as [->|_]; [|discriminate].
    destruct r as [|c2 r]; [discriminate|].
    destruct (N.eqb_spec c2 LF) as [->|_]; [|discriminate].
    intros H. injection H as <-. now right.
Qed.

Lemma patBlankLine_some (s : str) (n : nat) :
  patBlankLine s = Some n ->
  exists sep, isBlankLine sep /\ List.length sep = n /\ s = sep ++ skipn n s.
Proof.
  unfold patBlankLine, isBlankLine.
  destruct (eolAt s) as [n1|] eqn:E1; [|discriminate].
  destruct (eolAt (skipn n1 s)) as [n2|] eqn:E2; [|discriminate].
  intros H. injection H as <-.
  apply eolAt_some in E1, E2.
  destruct E1 as [[-> E1]|[-> E1]], E2 as [[-> E2]|[-> E2]];
    rewrite E1; cbn [skipn] in E2 |- *; rewrite E1 in E2; cbn [skipn] in E2.
  - exists [LF; LF]. rewrite E2 at 1. cbn. tauto.
  - exists [LF; CR; LF]. rewrite E2 at 1. cbn. tauto.
  - exists [CR; LF; LF]. rewrite E2 at 1. cbn. tauto.
  - exists [CR; LF; CR; LF]. rewrite E2 at 1. cbn. tauto.
Qed.

(** Every text is a first segment followed by pairs of a blank-line
    boundary and a segment, and [split] returns exactly these segments. *)
Lemma splitFrom_weave (n : nat) :
  forall s cur, (List.length s <= n)%nat ->
    exists seg rest,
      s = weave seg rest
      /\ Forall (fun p => isBlankLine (fst p)) rest
      /\ splitFrom patBlankLine 0 cur s = (rev cur ++ seg) :: List.map snd rest.
Proof.
  induction n as [|n IH]; intros s cur Hlen.
  - destruct s; [|cbn in Hlen; lia]. exists [], []. cbn.
    rewrite app_nil_r. auto.
  - destruct s as [|c r].
    + exists [], []. cbn. rewrite app_nil_r. auto.
    + cbn [splitFrom]. destruct (patBlankLine (c :: r)) as [k|] eqn:P.
      * destruct (patBlankLine_some _ _ P) as (sep & Hsep & Hk & Hs).
        rewrite splitFrom_skip.
        assert (Hskip : skipn (pred k) r = skipn k (c :: r)).
        { destruct k; [|reflexivity].
          destruct Hsep as [->|[->|[->| ->]]]; discriminate Hk. }
        rewrite Hskip.
        destruct (IH (skipn k (c :: r)) []) as (seg & rest & E & F & S).
        { rewrite length_skipn. cbn [List.length] in Hlen |- *.
          destruct k; [|lia].
          destruct Hsep as [->|[->|[->| ->]]]; discriminate Hk. }
        exists [], ((sep, seg) :: rest). split; [|split].
        -- unfold weave in E |- *. cbn [flat_map fst snd app].
           rewrite <- app_assoc, <- E. exact Hs.
        -- constructor; assumption.
        -- rewrite S. cbn [List.map snd rev app]. now rewrite app_nil_r.
      * destruct (IH r (c :: cur)) as (seg & rest & E & F & S).
        { cbn [List.length] in Hlen. lia. }
        exists (c :: seg), rest. split; [|split].
        -- unfold weave in E |- *. cbn [app]. now rewrite <- E.
        -- assumption.
        -- rewrite S. cbn [rev]. now rewrite <- app_assoc.
Qed.

Lemma split_weave (x : str) :
  exists first rest,
    x = weave first rest
    /\ Forall (fun p => isBlankLine (fst p)) rest
    /\ headersOf x = first
    /\ afterFirstBlank x = join [LF; LF] (List.map snd rest).
Proof.
  destruct (splitFrom_weave (List.length x) x [] (le_n _))
    as (seg & rest & E & F & S).
  exists seg, rest. unfold headersOf, afterFirstBlank, split. rewrite S.
  cbn [rev app hd slice1 tl]. auto.
Qed.

(** C6 (amended).  For every raw source whose header block holds no
    boundary parameter, the plain body is the quoted-printable decoding of
    the body block, and there is no HTML body: the field of the fetched
    message is undefined.  The body block is what follows the first
    blank-line boundary with every further blank-line boundary in it
    rewritten as LF LF: the source is a first segment followed by
    boundaries and segments in turn, the first segment is the header block
    and the later segments joined by LF LF are the body block.  It is the
    text after the first boundary itself when no further blank line
    follows. *)
Theorem single_part_fallback (w : World) (id : str) (msg : ImapMessage) :
  boundaryMatch (headersOf (source msg)) = None ->
  decompose (source msg)
  = {| plainBody := decodeQuotedPrintable (rawBodyOf (source msg));
       htmlBody := [] |}
  /\ FetchedMessage.body (resultOf w id msg)
     = trim (decodeQuotedPrintable (rawBodyOf (source msg)))
  /\ FetchedMessage.html (resultOf w id msg) = None
  /\ (exists first rest,
        source msg = weave first rest
        /\ Forall (fun p => isBlankLine (fst p)) rest
        /\ headersOf (source msg) = first
        /\ plainBody (decompose (source msg))
           = decodeQuotedPrintable (join [LF; LF] (List.map snd rest)))
  /\ (forall h sep b,
        source msg = h ++ sep ++ b -> unbroken h -> isBlankLine sep ->
        headersOf (source msg) = h
        /\ plainBody (decompose (source msg))
           = decodeQuotedPrintable (relinked b)
        /\ (test patBlankLine b = false ->
            plainBody (decompose (source msg)) = decodeQuotedPrintable b)).
Proof.
  intros H. pose proof (decompose_single_part _ H) as E.
  split; [exact E|]. unfold resultOf. cbn [FetchedMessage.body
    FetchedMessage.html]. rewrite E. cbn [plainBody htmlBody].
  split; [reflexivity|]. split; [reflexivity|]. split.
  - destruct (split_weave (source msg)) as (first & rest & Ew & F & Hh & Hr).
    exists first, rest. unfold rawBodyOf. rewrite Hr. auto.
  - intros h sep b Es Hh Hsep. rewrite Es.
    split; [now apply headersOf_unbroken|].
    assert (R : rawBodyOf (h ++ sep ++ b) = relinked b)
      by now apply afterFirstBlank_unbroken.
    rewrite R. split; [reflexivity|].
    intros Hb. now rewrite relinked_no_blank.
Qed.

Lemma single_part_fallback_witness :
  FetchedMessage.body (resultOf emptyInbox (lit "<id@x>") plainOnly)
  = lit "plain text only"
  /\ FetchedMessage.html (resultOf emptyInbox (lit "<id@x>") plainOnly) = None.
Proof.
  destruct (single_part_fallback emptyInbox (lit "<id@x>") plainOnly eq_refl)
    as (_ & Hbody & Hhtml & _).
  split; [exact Hbody | exact Hhtml].
Defined.

(** C6 as stated fails: with a second paragraph after a CRLF CRLF, the
    plain body is not the decoding of the text after the first blank
    line. *)
Lemma single_part_fallback_counterexample :
  boundaryMatch
    (headersOf (lit "Subject: hi" ++ CRLF ++ CRLF ++ lit "one" ++ CRLF
                ++ CRLF ++ lit "two")) = None
  /\ headersOf (lit "Subject: hi" ++ CRLF ++ CRLF ++ lit "one" ++ CRLF
                ++ CRLF ++ lit "two") = lit "Subject: hi"
  /\ plainBody
       (decompose (lit "Subject: hi" ++ CRLF ++ CRLF ++ lit "one" ++ CRLF
                   ++ CRLF ++ lit "two"))
     = lit "one" ++ [LF; LF] ++ lit "two"
  /\ decodeQuotedPrintable (lit "one" ++ CRLF ++ CRLF ++ lit "two")
     = lit "one" ++ CRLF ++ CRLF ++ lit "two"
  /\ plainBody
       (decompose (lit "Subject: hi" ++ CRLF ++ CRLF ++ lit "one" ++ CRLF
                   ++ CRLF ++ lit "two"))
     <> decodeQuotedPrintable (lit "one" ++ CRLF ++ CRLF ++ lit "two").
Proof.
  split; [reflexivity|]. split; [reflexivity|]. split; [reflexivity|].
  split; [reflexivity|]. discriminate.
Qed.




Example decompose_twoParagraphs :
  plainBody (decompose twoParagraphs) = lit "one" ++ [LF; LF] ++ lit "two"
                                        ++ CRLF.
Proof. reflexivity. Qed.

(** ** Threading headers and body of the outgoing message *)

(** C2.  For every SendOptions value whose inReplyTo is present (defined
    and not empty, which is what the code tests), the In-Reply-To header is
    that value and the References header is the incoming references, one
    space, and the inReplyTo value when references is present in the same
    sense, and the inReplyTo value alone when it is not. *)
Theorem threading_references (sender : str) (options : SendOptions.t)
  (irt : str) :
  SendOptions.inReplyTo options = Some irt -> isEmpty irt = false ->
  MailOptions.inReplyTo (mailOptionsOf sender options) = Some irt
  /\ (forall refs,
        SendOptions.references options = Some refs -> isEmpty refs = false ->
        MailOptions.references (mailOptionsOf sender options)
        = Some (refs ++ lit " " ++ irt))
  /\ (truthy (SendOptions.references options) = false ->
      MailOptions.references (mailOptionsOf sender options) = Some irt).
Proof.
  intros Hirt Hne. unfold mailOptionsOf. rewrite Hirt.
  destruct irt as [|c irt]; [discriminate|]. cbn [truthy].
  cbn [MailOptions.inReplyTo MailOptions.references interp].
  split; [reflexivity|]. split.
  - intros refs -> Hr. destruct refs; [discriminate|]. reflexivity.
  - intros ->. reflexivity.
Qed.

Lemma threading_references_witness :
  MailOptions.inReplyTo (mailOptionsOf (lit "me@example.com") threadedReply)
  = Some (lit "<c@x>")
  /\ MailOptions.references (mailOptionsOf (lit "me@example.com") threadedReply)
     = Some (lit "<a@x> <b@x> <c@x>").
Proof.
  destruct (threading_references (lit "me@example.com") threadedReply
              (lit "<c@x>") eq_refl eq_refl) as (Hirt & Hrefs & _).
  split; [exact Hirt|].
  exact (Hrefs (lit "<a@x> <b@x>") eq_refl eq_refl).
Defined.

(** C9.  For every SendOptions value whose inReplyTo is absent (undefined,
    or empty, which the code's test treats alike), the outgoing message has
    neither an In-Reply-To nor a References header, whatever the references
    field holds: supplied references are dropped without notice. *)
Theorem no_threading_without_inReplyTo (sender : str)
  (options : SendOptions.t) :
  truthy (SendOptions.inReplyTo options) = false ->
  MailOptions.inReplyTo (mailOptionsOf sender options) = None
  /\ MailOptions.references (mailOptionsOf sender options) = None.
Proof. intros H. unfold mailOptionsOf. rewrite H. split; reflexivity. Qed.

Lemma no_threading_without_inReplyTo_witness :
  MailOptions.inReplyTo (mailOptionsOf (lit "me@example.com") referencesOnly)
  = None
  /\ MailOptions.references
       (mailOptionsOf (lit "me@example.com") referencesOnly) = None.
Proof.
  apply (no_threading_without_inReplyTo (lit "me@example.com") referencesOnly).
  reflexivity.
Defined.



(** With credentials in place, what goes to the transport is the message
    built by [mailOptionsOf], and nothing is done before that. *)
Lemma sendEmail_sends (w : World) (options : SendOptions.t) :
  credentialsPresent (smtpConfig w) = true ->
  exists rest,
    fst (sendEmail w options)
    = SmtpSend (mailOptionsOf (user (smtpConfig w)) options) :: rest.
Proof.
  unfold credentialsPresent, sendEmail, validateSmtpConfig. intros H.
  apply negb_true_iff in H. rewrite H. cbn [ret bind app call].
  destruct (sendMail w _); cbn; eexists; reflexivity.
Qed.



(** ** Fetching: not found against failure *)

Lemma notFoundLine_not_failedLine (msgId : str) (err : Error) :
  notFoundLine msgId <> failedLine err.
Proof. discriminate. Qed.

Lemma validateImapConfig_ok (w : World) :
  credentialsPresent (imapConfig w) = true -> validateImapConfig w = ret tt.
Proof.
  unfold credentialsPresent, validateImapConfig. intros H.
  apply negb_true_iff in H. now rewrite H.
Qed.

Lemma fetchMessageById_no_match (w : World) (msgId : str) :
  credentialsPresent (imapConfig w) = true ->
  connect w = inr tt -> getMailboxLock w (lit "INBOX") = inr tt ->
  search w (searchIdOf msgId) = inr [] ->
  fetchMessageById w msgId
  = ([ImapConnect; ImapLock (lit "INBOX"); ImapSearch (searchIdOf msgId);
      ImapRelease; ImapLogout],
     match logout w with
     | inr _ => Returned None
     | inl err => Thrown err
     end).
Proof.
  intros Hc Hconn Hlock Hsearch. unfold fetchMessageById.
  rewrite (validateImapConfig_ok _ Hc), Hconn, Hlock, Hsearch.
  destruct (logout w) as [err|[]]; reflexivity.
Qed.

Lemma fetchMessageById_refused (w : World) (msgId : str) (err : Error) :
  credentialsPresent (imapConfig w) = true -> connect w = inl err ->
  fetchMessageById w msgId = ([ImapConnect], Thrown err).
Proof.
  intros Hc Hconn. unfold fetchMessageById.
  rewrite (validateImapConfig_ok _ Hc), Hconn. reflexivity.
Qed.

Lemma fetchMessageById_search_fails (w : World) (msgId : str) (err : Error) :
  credentialsPresent (imapConfig w) = true ->
  connect w = inr tt -> getMailboxLock w (lit "INBOX") = inr tt ->
  search w (searchIdOf msgId) = inl err -> logout w = inr tt ->
  fetchMessageById w msgId
  = ([ImapConnect; ImapLock (lit "INBOX"); ImapSearch (searchIdOf msgId);
      ImapRelease; ImapLogout], Thrown err).
Proof.
  intros Hc Hconn Hlock Hsearch Hout. unfold fetchMessageById.
  rewrite (validateImapConfig_ok _ Hc), Hconn, Hlock, Hsearch, Hout.
  reflexivity.
Qed.

(** What [run] does once the fetch has ended, for a command line that asks
    for a quote. *)
Lemma run_quote (w : World) (args : Args) (msgId : str) :
  readyToFetch args = true ->
  quoteMessageId args = Some msgId -> isEmpty msgId = false ->
  forall trace,
    (fetchMessageById w msgId = (trace, Returned None) ->
     run w args
     = (Stdout (lit "Fetching message " ++ msgId ++ lit "...") :: trace
        ++ [Stderr (notFoundLine msgId)], Exited 1%Z))
    /\ (forall err,
          fetchMessageById w msgId = (trace, Thrown err) ->
          run w args
          = (Stdout (lit "Fetching message " ++ msgId ++ lit "...") :: trace
             ++ [Stderr (failedLine err)], Exited 1%Z)).
Proof.
  unfold readyToFetch. intros Hr Hq Hne trace.
  apply andb_true_iff in Hr as [Hr Hbody]. apply andb_true_iff in Hr as [Hr Hs].
  apply andb_true_iff in Hr as [Hcmd Hto]. apply negb_true_iff in Hbody.
  unfold run, main. rewrite Hcmd, Hto, Hs, Hbody, Hq.
  destruct msgId as [|c msgId]; [discriminate|].
  cbn [truthy andb interp].
  split.
  - intros ->. cbn [bind emit exit catch ret app]. now rewrite ?app_nil_r.
  - intros err ->. cbn [bind emit exit catch ret app]. now rewrite ?app_nil_r.
Qed.

(** C8.  With credentials in place and a command line that asks for a
    quote: when the search of the inbox yields no match, the fetch returns
    null and throws nothing, and the caller prints the line saying that the
    message could not be found, then exits with status 1.  When instead the
    connection or the search fails, the fetch throws that error, which the
    top level reports with a line of its own before exiting.  The two lines
    differ for every Message-ID and every error. *)
Theorem not_found_is_reported_apart (w : World) (args : Args) (msgId : str) :
  credentialsPresent (imapConfig w) = true ->
  readyToFetch args = true ->
  quoteMessageId args = Some msgId -> isEmpty msgId = false ->
  let session :=
    [ImapConnect; ImapLock (lit "INBOX"); ImapSearch (searchIdOf msgId);
     ImapRelease; ImapLogout] in
  let announce := Stdout (lit "Fetching message " ++ msgId ++ lit "...") in
  (connect w = inr tt -> getMailboxLock w (lit "INBOX") = inr tt ->
   search w (searchIdOf msgId) = inr [] -> logout w = inr tt ->
   fetchMessageById w msgId = (session, Returned None)
   /\ run w args
      = (announce :: session ++ [Stderr (notFoundLine msgId)], Exited 1%Z))
  /\ (forall err, connect w = inl err ->
        fetchMessageById w msgId = ([ImapConnect], Thrown err)
        /\ run w args
           = ([announce; ImapConnect; Stderr (failedLine err)], Exited 1%Z))
  /\ (forall err,
        connect w = inr tt -> getMailboxLock w (lit "INBOX") = inr tt ->
        search w (searchIdOf msgId) = inl err -> logout w = inr tt ->
        fetchMessageById w msgId = (session, Thrown err)
        /\ run w args
           = (announce :: session ++ [Stderr (failedLine err)], Exited 1%Z))
  /\ (forall err, notFoundLine msgId <> failedLine err).
Proof.
  intros Hc Hr Hq Hne session announce. subst session announce.
  split; [|split; [|split]].
  - intros Hconn Hlock Hsearch Hout.
    pose proof (fetchMessageById_no_match w msgId Hc Hconn Hlock Hsearch)
      as F. rewrite Hout in F. split; [exact F|].
    now apply (run_quote w args msgId Hr Hq Hne).
  - intros err Hconn.
    pose proof (fetchMessageById_refused w msgId err Hc Hconn) as F.
    split; [exact F|].
    now apply (proj2 (run_quote w args msgId Hr Hq Hne [ImapConnect])).
  - intros err Hconn Hlock Hsearch Hout.
    pose proof (fetchMessageById_search_fails w msgId err Hc Hconn Hlock
                  Hsearch Hout) as F.
    split; [exact F|].
    now apply (proj2 (run_quote w args msgId Hr Hq Hne _)).
  - intros err. apply notFoundLine_not_failedLine.
Qed.

Lemma not_found_is_reported_apart_witness :
  (fetchMessageById emptyInbox (lit "<abc123@mail.protonmail.ch>")
   = ([ImapConnect; ImapLock (lit "INBOX");
       ImapSearch (lit "abc123@mail.protonmail.ch");
       ImapRelease; ImapLogout], Returned None)
   /\ snd (run emptyInbox replyArgs) = Exited 1%Z
   /\ last (fst (run emptyInbox replyArgs)) ImapConnect
      = Stderr (lit "Error: Could not find message with ID <abc123@mail.protonmail.ch>"))
  /\ (fetchMessageById unreachable (lit "<abc123@mail.protonmail.ch>")
      = ([ImapConnect], Thrown refused)
      /\ snd (run unreachable replyArgs) = Exited 1%Z
      /\ last (fst (run unreachable replyArgs)) ImapConnect
         = Stderr (lit "Failed: connect ECONNREFUSED 127.0.0.1:1143")).
Proof.
  split.
  - destruct (not_found_is_reported_apart emptyInbox replyArgs
                (lit "<abc123@mail.protonmail.ch>")
                eq_refl eq_refl eq_refl eq_refl) as (Hnone & _).
    destruct (Hnone eq_refl eq_refl eq_refl eq_refl) as (F & R).
    split; [exact F|]. rewrite R. split; reflexivity.
  - destruct (not_found_is_reported_apart unreachable replyArgs
                (lit "<abc123@mail.protonmail.ch>")
                eq_refl eq_refl eq_refl eq_refl) as (_ & Hfail & _).
    destruct (Hfail refused eq_refl) as (F & R).
    split; [exact F|]. rewrite R. split; reflexivity.
Defined.
